(** * A pointer-tree binary heap (heap.h): shallow embedding and properties

    The C++ header defines [Node<T>] (a binary-tree cell) and [Heap<T>]
    (a priority queue that navigates its tree with a stack of directions
    computed from the binary digits of a 1-based position).

    Modelling choices:
    - a [Node<T>*] is a value of [NodePtr]: [EMPTY] is [nullptr], [Node d l r]
      is a live cell.  Every cell has exactly one owner, so in-place updates
      through a pointer are modelled by returning the updated subtree and
      storing it back in its owner;
    - [uint] is a 32-bit unsigned integer, kept in [N] with the wrap-around
      of [++] and [--] written out;
    - [std::stack<Direction>] is a list whose head is the top of the stack;
      [assert(!dirlist.empty())] followed by [stack_pop(dirlist)] is a match
      on that list;
    - assertions are compiled in; a failed [assert] and a dereference of
      [nullptr] are two error results of type [result];
    - [insert] takes the node to link in, as in the header; inserting a value
      [v] is [insert h (Node_leaf v)]. *)

From Equations Require Import Equations.
From Stdlib Require Import List NArith ZArith Lia Bool Permutation Sorted.
Import ListNotations.

Set Implicit Arguments.

(* Arithmetic on [N] is left to [lia]; [simpl] keeps it folded. *)
#[local] Arguments N.mul : simpl never.
#[local] Arguments N.add : simpl never.
#[local] Arguments N.sub : simpl never.
#[local] Arguments N.div : simpl never.
#[local] Arguments N.modulo : simpl never.
#[local] Arguments N.pow : simpl never.
#[local] Arguments N.ltb : simpl never.
#[local] Arguments N.eqb : simpl never.

(** ** Outcomes of running a member function *)

Inductive result (A : Type) : Type :=
| Ok (a : A)      (* normal return *)
| AssertFail      (* an [assert] failed: the program aborts *)
| NullDeref.      (* [EMPTY] was dereferenced: undefined behaviour *)

Arguments Ok {A} a.
Arguments AssertFail {A}.
Arguments NullDeref {A}.

Definition bind {A B : Type} (m : result A) (k : A -> result B) : result B :=
  match m with
  | Ok a => k a
  | AssertFail => AssertFail
  | NullDeref => NullDeref
  end.

Notation "x <- m ;; k" := (bind m (fun x => k))
  (at level 61, m at next level, right associativity).
Notation "' p <- m ;; k" := (bind m (fun x => let p := x in k))
  (at level 61, p pattern, m at next level, right associativity).

(** ** [uint] arithmetic *)

Definition UINT_WIDTH : N := 32.
Definition UINT_MODULUS : N := 2 ^ UINT_WIDTH.

(* ++n on a uint *)
Definition uint_incr (n : N) : N := ((n + 1) mod UINT_MODULUS)%N.
(* n-- on a uint *)
Definition uint_decr (n : N) : N := ((n + UINT_MODULUS - 1) mod UINT_MODULUS)%N.

(** ** Directions and the direction stack *)

Inductive Direction : Type := L | R.

(* stack.push(d) *)
Definition push (d : Direction) (stack : list Direction) : list Direction :=
  d :: stack.

(** ** The path encoder: [get_dirlist] / [_get_dirlist] *)

(* [if (c)] with the outcome of the test kept for the recursive call *)
Definition inspect {A : Type} (a : A) : { b : A | a = b } := exist _ a eq_refl.

Equations _get_dirlist (n : N) (directions : list Direction)
  : list Direction by wf (N.size_nat n) lt :=
_get_dirlist n directions with inspect (n <? 2)%N := {
  | exist _ true _ := directions
  | exist _ false _ :=
      _get_dirlist (n / 2)
        (if (n mod 2 =? 0)%N then push L directions else push R directions) }.
Next Obligation.
  (* halving an [n >= 2] drops one binary digit *)
  apply N.ltb_ge in e. rewrite <- N.div2_div.
  destruct n as [|[p|p|]]; simpl; lia.
Qed.

Definition get_dirlist (n : N) : list Direction := _get_dirlist n [].

(** ** Nodes *)

Section HeapModel.

Context {T : Type}.

(* A [Node<T>*]: the null pointer, or a cell with its three fields. *)
Inductive NodePtr : Type :=
| EMPTY
| Node (data : T) (left right : NodePtr).

(* Node<T>::Node(T data): a leaf *)
Definition Node_leaf (data : T) : NodePtr := Node data EMPTY EMPTY.

(* this->data *)
Definition get_data (this : NodePtr) : result T :=
  match this with
  | EMPTY => NullDeref
  | Node data _ _ => Ok data
  end.

(* this->data = d *)
Definition set_data (this : NodePtr) (d : T) : result NodePtr :=
  match this with
  | EMPTY => NullDeref
  | Node _ l r => Ok (Node d l r)
  end.

(* Node<T>::get_child *)
Definition get_child (this : NodePtr) (direction : Direction) : result NodePtr :=
  match this with
  | EMPTY => NullDeref
  | Node _ l r => Ok (match direction with L => l | R => r end)
  end.

(* Node<T>::insert: overwrites one child slot *)
Definition Node_insert (this : NodePtr) (direction : Direction) (node : NodePtr)
  : result NodePtr :=
  match this with
  | EMPTY => NullDeref
  | Node data l r =>
      Ok (match direction with
          | L => Node data node r
          | R => Node data l node
          end)
  end.

(** ** The heap object *)

Record Heap : Type := mkHeap {
  tree : NodePtr;              (* Node<T> *tree *)
  size : N;                    (* uint size *)
  compare : T -> T -> bool     (* std::function<bool(T, T)> compare *)
}.

Definition DEFAULT_HEAP_SIZE : N := 0.

(* Heap<T>::Heap(bool compare(T, T)) *)
Definition Heap_new (compare : T -> T -> bool) : Heap :=
  {| tree := EMPTY; size := DEFAULT_HEAP_SIZE; compare := compare |}.

(* Heap<T>::get_size *)
Definition get_size (h : Heap) : N := size h.

(* Heap<T>::get_top *)
Definition get_top (h : Heap) : result T :=
  match tree h with
  | EMPTY => AssertFail
  | Node data _ _ => Ok data
  end.

(** *** Insertion *)

(* Heap<T>::_insert_leaf.  The walk updates the tree in place; the model
   rebuilds each visited cell around its updated child. *)
Fixpoint _insert_leaf (tree to_insert : NodePtr) (dirlist : list Direction)
  : result NodePtr :=
  match dirlist with
  | [] => AssertFail
  | direction :: dirlist =>
      match dirlist with
      | [] => Node_insert tree direction to_insert
      | _ :: _ =>
          child <- get_child tree direction ;;
          child <- _insert_leaf child to_insert dirlist ;;
          Node_insert tree direction child
      end
  end.

(* Heap<T>::insert_leaf, returning the new value of the member [tree] *)
Definition insert_leaf (tree node : NodePtr) (size : N)
  (dirlist : list Direction) : result NodePtr :=
  if (size =? 1)%N then Ok node
  else _insert_leaf tree node dirlist.

(* Heap<T>::swap_nodes, returning the two updated cells *)
Definition swap_nodes (a b : NodePtr) : result (NodePtr * NodePtr) :=
  match a, b with
  | Node a_data a_l a_r, Node b_data b_l b_r =>
      Ok (Node b_data a_l a_r, Node a_data b_l b_r)
  | _, _ => AssertFail
  end.

Section WithCompare.

Variable cmp : T -> T -> bool.

(* [swap_nodes(node, child)] where [child] is the [direction] child of
   [node]: the cell [child] is updated in place, so the model stores it back
   in its slot. *)
Definition swap_with_child (node child : NodePtr) (direction : Direction)
  : result NodePtr :=
  ' (node, child) <- swap_nodes node child ;;
  Node_insert node direction child.

(* Heap<T>::_bubble_up *)
Fixpoint _bubble_up (node : NodePtr) (dirlist : list Direction)
  : result NodePtr :=
  match dirlist with
  | [] => AssertFail
  | direction :: dirlist =>
      child <- get_child node direction ;;
      child_data <- get_data child ;;
      root_data <- get_data node ;;
      match dirlist with
      | [] =>
          if cmp root_data child_data then swap_with_child node child direction
          else Ok node
      | _ :: _ =>
          child <- _bubble_up child dirlist ;;
          node <- Node_insert node direction child ;;
          child_data <- get_data child ;;
          root_data <- get_data node ;;
          if cmp root_data child_data then swap_with_child node child direction
          else Ok node
      end
  end.

(* Heap<T>::bubble_up *)
Definition bubble_up (tree : NodePtr) (dirlist : list Direction)
  : result NodePtr :=
  _bubble_up tree dirlist.

(** *** Extraction *)

(* Heap<T>::pop_leaf: returns the updated [node] and the [Node<T>] object
   the function returns by value.  [delete (child)] frees the subtree that
   the slot held; the slot is then overwritten with [EMPTY]. *)
Fixpoint pop_leaf (node : NodePtr) (dirlist : list Direction)
  : result (NodePtr * NodePtr) :=
  match dirlist with
  | [] => AssertFail
  | direction :: dirlist =>
      child <- get_child node direction ;;
      match dirlist with
      | [] =>
          data <- get_data node ;;
          node <- Node_insert node direction EMPTY ;;
          Ok (node, Node_leaf data)
      | _ :: _ =>
          ' (child, leaf) <- pop_leaf child dirlist ;;
          node <- Node_insert node direction child ;;
          Ok (node, leaf)
      end
  end.

Fixpoint node_count (t : NodePtr) : nat :=
  match t with
  | EMPTY => 0
  | Node _ l r => S (node_count l + node_count r)
  end.

(* Heap<T>::bubble_down.  In the last clause [dir] is [L] when
   [compare(right_data, left_data)] holds and [R] otherwise; [swap_nodes]
   exchanges [root_data] with the data of that child and the function
   recurses into the child, which is rebuilt in its slot. *)
Equations bubble_down (node : NodePtr) : result NodePtr
  by wf (node_count node) lt :=
bubble_down EMPTY := NullDeref;
bubble_down (Node root_data EMPTY r) := Ok (Node root_data EMPTY r);
bubble_down (Node root_data (Node left_data ll lr) EMPTY) :=
  if cmp root_data left_data
  then Ok (Node left_data (Node root_data ll lr) EMPTY)
  else Ok (Node root_data (Node left_data ll lr) EMPTY);
bubble_down (Node root_data (Node left_data ll lr) (Node right_data rl rr)) :=
  let comp_with_root :=
    if cmp left_data right_data then right_data else left_data in
  if negb (cmp root_data comp_with_root)
  then Ok (Node root_data (Node left_data ll lr) (Node right_data rl rr))
  else if cmp right_data left_data
  then child <- bubble_down (Node root_data ll lr) ;;
       Ok (Node left_data child (Node right_data rl rr))
  else child <- bubble_down (Node root_data rl rr) ;;
       Ok (Node right_data (Node left_data ll lr) child).
Next Obligation. simpl. lia. Qed.
Next Obligation. simpl. lia. Qed.

End WithCompare.

(** *** Public operations *)

(* Heap<T>::insert *)
Definition insert (h : Heap) (node : NodePtr) : result Heap :=
  let size := uint_incr (size h) in
  let dirlist := get_dirlist size in
  tree <- insert_leaf (tree h) node size dirlist ;;
  if (1 <? size)%N then
    tree <- bubble_up (compare h) tree dirlist ;;
    Ok {| tree := tree; size := size; compare := compare h |}
  else Ok {| tree := tree; size := size; compare := compare h |}.

(* Heap<T>::pop_top: the returned value and the heap afterwards *)
Definition pop_top (h : Heap) : result (T * Heap) :=
  if negb (0 <? size h)%N then AssertFail
  else
    data <- get_data (tree h) ;;
    if (size h =? 1)%N then
      Ok (data, {| tree := EMPTY; size := size h; compare := compare h |})
    else
      let dirlist := get_dirlist (size h) in
      ' (tree, leaf) <- pop_leaf (tree h) dirlist ;;
      let size := uint_decr (size h) in
      leaf_data <- get_data leaf ;;
      tree <- set_data tree leaf_data ;;
      tree <- bubble_down (compare h) tree ;;
      Ok (data, {| tree := tree; size := size; compare := compare h |}).

End HeapModel.

Arguments NodePtr T : clear implicits.
Arguments Heap T : clear implicits.

(* Heap<T>::Heap() for [T = int]: the default predicate is [a > b] *)
Definition Heap_default : Heap Z := Heap_new Z.gtb.


(** * Specification vocabulary *)

(** ** Level-order positions *)

(* Node [k] has children [2k] (left) and [2k+1] (right); the root is 1. *)
Definition descend (k : N) (d : Direction) : N :=
  match d with
  | L => 2 * k
  | R => 2 * k + 1
  end%N.

(* The position reached from the root by a sequence of directions,
   first step first. *)
Definition position_of (dirs : list Direction) : N := fold_left descend dirs 1%N.

(* How a binary digit reads as a direction. *)
Definition dir_of_bit (b : bool) : Direction := if b then R else L.

(** ** Trees: occupancy, shape and order *)

Section Vocabulary.

Context {T : Type}.

(* The data stored at the end of a path from the root, if a cell is there. *)
Fixpoint data_at (t : NodePtr T) (dirs : list Direction) : option T :=
  match t with
  | EMPTY => None
  | Node d l r =>
      match dirs with
      | [] => Some d
      | L :: dirs => data_at l dirs
      | R :: dirs => data_at r dirs
      end
  end.

(* A complete binary tree of [n] cells: exactly the level-order positions
   [1 .. n] are occupied, so every level is full except possibly the last,
   which is filled from the left without gaps. *)
Definition complete (n : N) (t : NodePtr T) : Prop :=
  forall dirs, data_at t dirs <> None <-> (position_of dirs <= n)%N.

(* Two trees with the same cells, whatever the data. *)
Fixpoint same_shape (t t' : NodePtr T) : Prop :=
  match t, t' with
  | EMPTY, EMPTY => True
  | Node _ l r, Node _ l' r' => same_shape l l' /\ same_shape r r'
  | _, _ => False
  end.

(* No cell has a right child without a left child, and a cell with only a
   left child has a leaf there. *)
Fixpoint left_packed (t : NodePtr T) : Prop :=
  match t with
  | EMPTY => True
  | Node _ l r =>
      match l, r with
      | EMPTY, Node _ _ _ => False
      | Node _ ll lr, EMPTY => ll = EMPTY /\ lr = EMPTY
      | _, _ => True
      end /\ left_packed l /\ left_packed r
  end.

(* The root cell with its data overwritten. *)
Definition with_data (d : T) (t : NodePtr T) : NodePtr T :=
  match t with
  | EMPTY => EMPTY
  | Node _ l r => Node d l r
  end.

(* The values stored in a tree, each cell before its subtrees. *)
Fixpoint elements (t : NodePtr T) : list T :=
  match t with
  | EMPTY => []
  | Node d l r => d :: elements l ++ elements r
  end.

Section Order.

Variable cmp : T -> T -> bool.

(* The predicate does not signal [p] out of order above the root of [c]. *)
Definition root_ok (p : T) (c : NodePtr T) : Prop :=
  match c with
  | EMPTY => True
  | Node y _ _ => cmp p y = false
  end.

(* Heap order: no parent/child pair signals a violation. *)
Fixpoint ordered (t : NodePtr T) : Prop :=
  match t with
  | EMPTY => True
  | Node x l r => root_ok x l /\ root_ok x r /\ ordered l /\ ordered r
  end.

(* [m] may sit above [t] whatever bubbling down does to the root of [t]. *)
Definition dominates (m : T) (t : NodePtr T) : Prop :=
  match t with
  | EMPTY => True
  | Node q l r => cmp m q = false /\ root_ok m l /\ root_ok m r
  end.

(* A consistent violation test is the strict part of a total preorder:
   asymmetric and negatively transitive (a strict weak order), as [a > b]
   and [a < b] are. *)
Record consistent : Prop := {
  cmp_asym : forall a b, cmp a b = true -> cmp b a = false;
  cmp_negtrans :
    forall a b c, cmp a b = false -> cmp b c = false -> cmp a c = false
}.

End Order.

(** ** Sequences of operations *)

Inductive Op : Type :=
| OpInsert (v : T)
| OpPopTop.

Definition step (h : Heap T) (o : Op) : result (Heap T) :=
  match o with
  | OpInsert v => insert h (Node_leaf v)
  | OpPopTop => ' (_, h) <- pop_top h ;; Ok h
  end.

Fixpoint run (h : Heap T) (ops : list Op) : result (Heap T) :=
  match ops with
  | [] => Ok h
  | o :: ops => h <- step h o ;; run h ops
  end.

(* The values returned by [n] successive calls of [pop_top]. *)
Fixpoint pop_n (h : Heap T) (n : nat) : result (list T * Heap T) :=
  match n with
  | 0 => Ok ([], h)
  | S n =>
      ' (v, h) <- pop_top h ;;
      ' (vs, h) <- pop_n h n ;;
      Ok (v :: vs, h)
  end.

(* How many [insert] and how many [pop_top] calls a sequence makes. *)
Fixpoint inserts_in (ops : list Op) : nat :=
  match ops with
  | [] => 0
  | OpInsert _ :: ops => S (inserts_in ops)
  | OpPopTop :: ops => inserts_in ops
  end.

Fixpoint pops_in (ops : list Op) : nat :=
  match ops with
  | [] => 0
  | OpInsert _ :: ops => pops_in ops
  | OpPopTop :: ops => S (pops_in ops)
  end.

(* The number of cells the heap owns. *)
Definition cells (h : Heap T) : nat := node_count (tree h).

(* What a caller can observe of a heap: its tree and [get_size()]. *)
Definition snapshot (h : Heap T) : NodePtr T * N := (tree h, get_size h).

(* The heap is what the data structure promises: ordered, and either a
   complete tree of [size] cells, or the state [pop_top] leaves behind when
   it removes the only cell (no tree, [size] still 1). *)
Definition heap_inv (h : Heap T) : Prop :=
  ordered (compare h) (tree h) /\
  ((complete (size h) (tree h) /\ (size h < UINT_MODULUS)%N) \/
   (tree h = EMPTY /\ size h = 1%N)).

End Vocabulary.

Arguments Op T : clear implicits.

(** * The path encoder *)

Lemma _get_dirlist_eq (n : N) (directions : list Direction) :
  _get_dirlist n directions =
  if (n <? 2)%N then directions
  else _get_dirlist (n / 2)
         (if (n mod 2 =? 0)%N then push L directions else push R directions).
Proof.
  funelim (_get_dirlist n directions); rewrite e; reflexivity.
Qed.

Lemma _get_dirlist_even (k : N) (acc : list Direction) :
  (1 <= k)%N -> _get_dirlist (2 * k) acc = _get_dirlist k (L :: acc).
Proof.
  intros Hk. rewrite _get_dirlist_eq.
  replace (2 * k <? 2)%N with false by (symmetry; apply N.ltb_ge; lia).
  rewrite (N.mul_comm 2 k), N.div_mul, N.Div0.mod_mul by lia.
  reflexivity.
Qed.

Lemma _get_dirlist_odd (k : N) (acc : list Direction) :
  (1 <= k)%N -> _get_dirlist (2 * k + 1) acc = _get_dirlist k (R :: acc).
Proof.
  intros Hk. rewrite _get_dirlist_eq.
  replace (2 * k + 1 <? 2)%N with false by (symmetry; apply N.ltb_ge; lia).
  replace ((2 * k + 1) / 2)%N with k
    by (apply N.div_unique with (r := 1%N); lia).
  replace ((2 * k + 1) mod 2)%N with 1%N
    by (apply N.mod_unique with (q := k); lia).
  reflexivity.
Qed.

Example get_dirlist_6 : get_dirlist 6 = [R; L].
Proof. reflexivity. Qed.

Example get_dirlist_4000000000 : length (get_dirlist 4000000000) = 31.
Proof. vm_compute. reflexivity. Qed.

Lemma get_dirlist_1 : get_dirlist 1 = [].
Proof. reflexivity. Qed.

Lemma get_dirlist_0 : get_dirlist 0 = [].
Proof. reflexivity. Qed.

(* The accumulator is only ever pushed on. *)
Lemma _get_dirlist_pos_acc (p : positive) (acc : list Direction) :
  _get_dirlist (Npos p) acc = get_dirlist (Npos p) ++ acc.
Proof.
  unfold get_dirlist. revert acc.
  induction p as [p IH|p IH|]; intros acc.
  - change (Npos p~1) with (2 * Npos p + 1)%N.
    rewrite !_get_dirlist_odd by lia.
    rewrite (IH (R :: acc)), (IH [R]), <- app_assoc. reflexivity.
  - change (Npos p~0) with (2 * Npos p)%N.
    rewrite !_get_dirlist_even by lia.
    rewrite (IH (L :: acc)), (IH [L]), <- app_assoc. reflexivity.
  - reflexivity.
Qed.

Lemma get_dirlist_descend (k : N) (d : Direction) :
  (1 <= k)%N -> get_dirlist (descend k d) = get_dirlist k ++ [d].
Proof.
  intros Hk. destruct k as [|p]; [lia|].
  unfold get_dirlist at 1. destruct d; simpl descend.
  - change (Npos p~0) with (2 * Npos p)%N.
    rewrite _get_dirlist_even by lia. apply _get_dirlist_pos_acc.
  - change (Npos p~1) with (2 * Npos p + 1)%N.
    rewrite _get_dirlist_odd by lia. apply _get_dirlist_pos_acc.
Qed.

Lemma position_of_snoc (dirs : list Direction) (d : Direction) :
  position_of (dirs ++ [d]) = descend (position_of dirs) d.
Proof. unfold position_of. rewrite fold_left_app. reflexivity. Qed.

Lemma position_of_pos (dirs : list Direction) : (1 <= position_of dirs)%N.
Proof.
  induction dirs as [|d dirs IH] using rev_ind.
  - unfold position_of; simpl; lia.
  - rewrite position_of_snoc. destruct d; unfold descend; lia.
Qed.

(* Decoding the encoded path gives the position back ... *)
Lemma position_of_get_dirlist (n : N) :
  (1 <= n)%N -> position_of (get_dirlist n) = n.
Proof.
  intros Hn. destruct n as [|p]; [lia|]. clear Hn.
  induction p as [p IH|p IH|].
  - change (Npos p~1) with (descend (Npos p) R).
    rewrite get_dirlist_descend, position_of_snoc, IH by lia. reflexivity.
  - change (Npos p~0) with (descend (Npos p) L).
    rewrite get_dirlist_descend, position_of_snoc, IH by lia. reflexivity.
  - reflexivity.
Qed.

(* ... and encoding the position of a path gives the path back. *)
Lemma get_dirlist_position_of (dirs : list Direction) :
  get_dirlist (position_of dirs) = dirs.
Proof.
  induction dirs as [|d dirs IH] using rev_ind.
  - reflexivity.
  - rewrite position_of_snoc, get_dirlist_descend, IH
      by apply position_of_pos.
    reflexivity.
Qed.

Lemma get_dirlist_length (n : N) :
  (1 <= n)%N -> length (get_dirlist n) = N.to_nat (N.log2 n).
Proof.
  intros Hn. destruct n as [|p]; [lia|]. clear Hn.
  induction p as [p IH|p IH|].
  - change (Npos p~1) with (descend (Npos p) R).
    rewrite get_dirlist_descend, length_app, IH by lia.
    unfold descend. rewrite N.log2_succ_double by lia. simpl length. lia.
  - change (Npos p~0) with (descend (Npos p) L).
    rewrite get_dirlist_descend, length_app, IH by lia.
    unfold descend. rewrite N.log2_double by lia. simpl length. lia.
  - reflexivity.
Qed.

Lemma get_dirlist_nth (n : N) (i : nat) :
  (1 <= n)%N -> i < length (get_dirlist n) ->
  nth i (get_dirlist n) L =
  dir_of_bit (N.testbit n (N.log2 n - 1 - N.of_nat i)).
Proof.
  intros Hn. destruct n as [|p]; [lia|]. clear Hn. revert i.
  induction p as [p IH|p IH|]; intros i Hi.
  - change (Npos p~1) with (descend (Npos p) R) in *.
    rewrite get_dirlist_descend in * by lia.
    rewrite length_app in Hi. simpl length in Hi. unfold descend.
    pose proof (get_dirlist_length (n := Npos p) ltac:(lia)) as Hlen.
    rewrite N.log2_succ_double by lia.
    destruct (Nat.eq_dec i (length (get_dirlist (Npos p)))) as [->|Hne].
    + rewrite nth_middle.
      replace (N.succ (N.log2 (Npos p)) - 1 - N.of_nat (length (get_dirlist (Npos p))))%N
        with 0%N by lia.
      rewrite N.testbit_odd_0. reflexivity.
    + rewrite app_nth1 by lia. rewrite IH by lia.
      replace (N.succ (N.log2 (Npos p)) - 1 - N.of_nat i)%N
        with (N.succ (N.log2 (Npos p) - 1 - N.of_nat i)) by lia.
      rewrite N.testbit_odd_succ by lia. reflexivity.
  - change (Npos p~0) with (descend (Npos p) L) in *.
    rewrite get_dirlist_descend in * by lia.
    rewrite length_app in Hi. simpl length in Hi. unfold descend.
    pose proof (get_dirlist_length (n := Npos p) ltac:(lia)) as Hlen.
    rewrite N.log2_double by lia.
    destruct (Nat.eq_dec i (length (get_dirlist (Npos p)))) as [->|Hne].
    + rewrite nth_middle.
      replace (N.succ (N.log2 (Npos p)) - 1 - N.of_nat (length (get_dirlist (Npos p))))%N
        with 0%N by lia.
      rewrite N.testbit_even_0. reflexivity.
    + rewrite app_nth1 by lia. rewrite IH by lia.
      replace (N.succ (N.log2 (Npos p)) - 1 - N.of_nat i)%N
        with (N.succ (N.log2 (Npos p) - 1 - N.of_nat i)) by lia.
      rewrite N.testbit_even_succ by lia. reflexivity.
  - rewrite get_dirlist_1 in Hi. simpl in Hi. lia.
Qed.

(** ** Positions are paths *)

Lemma position_of_inj (dirs dirs' : list Direction) :
  position_of dirs = position_of dirs' -> dirs = dirs'.
Proof.
  intros H. rewrite <- (get_dirlist_position_of dirs), H.
  apply get_dirlist_position_of.
Qed.

Lemma fold_descend_ge (qs : list Direction) (k : N) :
  (k <= fold_left descend qs k)%N.
Proof.
  revert k. induction qs as [|q qs IH]; intros k; cbn [fold_left]; [lia|].
  specialize (IH (descend k q)). destruct q; unfold descend in *; lia.
Qed.

Lemma position_of_app (dirs qs : list Direction) :
  position_of (dirs ++ qs) = fold_left descend qs (position_of dirs).
Proof. unfold position_of. apply fold_left_app. Qed.

(* Below a cell, positions are at least twice as large. *)
Lemma position_of_below (dirs qs : list Direction) :
  qs <> [] -> (2 * position_of dirs <= position_of (dirs ++ qs))%N.
Proof.
  intros Hqs. rewrite position_of_app. destruct qs as [|q qs]; [easy|].
  cbn [fold_left]. pose proof (fold_descend_ge qs (descend (position_of dirs) q)).
  destruct q; unfold descend in *; lia.
Qed.

Lemma get_dirlist_nonempty (n : N) : (2 <= n)%N -> get_dirlist n <> [].
Proof.
  intros Hn E. pose proof (position_of_get_dirlist (n := n) ltac:(lia)) as H.
  rewrite E in H. unfold position_of in H. simpl in H. lia.
Qed.

(* The path to position [n >= 2] is the path to its parent and one step. *)
Lemma get_dirlist_parent (n : N) :
  (2 <= n)%N ->
  exists parent d,
    get_dirlist n = parent ++ [d] /\ (1 <= position_of parent < n)%N.
Proof.
  intros Hn. pose proof (get_dirlist_nonempty Hn) as Hne.
  destruct (exists_last Hne) as (parent & d & E).
  exists parent, d. split; [exact E|].
  pose proof (position_of_get_dirlist (n := n) ltac:(lia)) as H.
  rewrite E, position_of_snoc in H.
  pose proof (position_of_pos parent).
  destruct d; unfold descend in H; lia.
Qed.

(** ** Occupancy and shape *)

Section ShapeFacts.

Context {T : Type}.
Implicit Types (t : NodePtr T) (dirs qs : list Direction).

Lemma data_at_leaf (v : T) dirs :
  dirs <> [] -> data_at (Node_leaf v) dirs = None.
Proof. destruct dirs as [|[] ?]; easy. Qed.

Lemma same_shape_refl t : same_shape t t.
Proof. induction t; simpl; auto. Qed.

Lemma same_shape_data_at t t' :
  same_shape t t' -> forall dirs, data_at t dirs = None <-> data_at t' dirs = None.
Proof.
  revert t'. induction t as [|x l IHl r IHr]; intros [|x' l' r']; simpl;
    try tauto.
  intros [Hl Hr] [|[] dirs]; [easy| now apply IHl | now apply IHr].
Qed.

Lemma same_shape_complete (n : N) t t' :
  same_shape t t' -> complete n t -> complete n t'.
Proof.
  intros Hs Hc dirs. rewrite <- (Hc dirs).
  pose proof (same_shape_data_at _ _ Hs dirs). tauto.
Qed.

Lemma complete_EMPTY : complete 0 (@EMPTY T).
Proof.
  intros dirs. simpl. pose proof (position_of_pos dirs). split; [easy|lia].
Qed.

Lemma complete_leaf (v : T) : complete 1 (Node_leaf v).
Proof.
  intros [|d dirs].
  - simpl. unfold position_of. simpl. split; [lia|easy].
  - rewrite data_at_leaf by easy.
    pose proof (@position_of_below [] (d :: dirs) ltac:(easy)) as H.
    change (position_of []) with 1%N in H. simpl app in H.
    split; [easy|lia].
Qed.

Lemma complete_nonempty (n : N) t : complete n t -> (1 <= n)%N -> t <> EMPTY.
Proof.
  intros Hc Hn ->. destruct (Hc []) as [_ H]. apply H; [|reflexivity].
  unfold position_of; simpl; lia.
Qed.

Lemma complete_0 t : complete 0 t -> t = EMPTY.
Proof.
  intros Hc. destruct t as [|x l r]; [reflexivity|].
  destruct (Hc []) as [H _]. simpl in H.
  unfold position_of in H; simpl in H. specialize (H ltac:(easy)). lia.
Qed.

(* In a complete tree children are packed to the left. *)
Lemma occupancy_left_packed (n : N) t (prefix : list Direction) :
  (forall qs, data_at t qs <> None <-> (position_of (prefix ++ qs) <= n)%N) ->
  left_packed t.
Proof.
  revert prefix. induction t as [|x l IHl r IHr]; intros prefix H; [exact I|].
  pose proof (position_of_pos prefix) as Hk.
  assert (HL : forall qs, data_at l qs <> None <->
                 (position_of ((prefix ++ [L]) ++ qs) <= n)%N).
  { intros qs. rewrite <- app_assoc. apply (H (L :: qs)). }
  assert (HR : forall qs, data_at r qs <> None <->
                 (position_of ((prefix ++ [R]) ++ qs) <= n)%N).
  { intros qs. rewrite <- app_assoc. apply (H (R :: qs)). }
  simpl. split; [|split; [apply (IHl _ HL) | apply (IHr _ HR)]].
  pose proof (HL []) as HL0. pose proof (HR []) as HR0.
  rewrite !app_nil_r, !position_of_snoc in HL0, HR0. unfold descend in *.
  destruct l as [|y ll lr], r as [|z rl rr]; simpl in *; try exact I.
  - assert (2 * position_of prefix + 1 <= n)%N by (apply HR0; easy).
    assert (~ (2 * position_of prefix <= n)%N) by (intros C; now apply HL0 in C).
    lia.
  - assert (Hn : ~ (2 * position_of prefix + 1 <= n)%N)
      by (intros C; now apply HR0 in C).
    split.
    + destruct ll as [|? ? ?]; [reflexivity|]. exfalso. apply Hn.
      pose proof (proj1 (HL [L]) ltac:(easy)) as C.
      rewrite !position_of_snoc in C. unfold descend in C. lia.
    + destruct lr as [|? ? ?]; [reflexivity|]. exfalso. apply Hn.
      pose proof (proj1 (HL [R]) ltac:(easy)) as C.
      rewrite !position_of_snoc in C. unfold descend in C. lia.
Qed.

Lemma complete_left_packed (n : N) t : complete n t -> left_packed t.
Proof. intros Hc. apply (@occupancy_left_packed n t []). exact Hc. Qed.

End ShapeFacts.

(** ** The tree walks *)

Section WalkFacts.

Context {T : Type}.
Implicit Types (t new : NodePtr T) (dirs qs parent : list Direction).

Lemma _insert_leaf_step t new (p : Direction) dirs :
  dirs <> [] ->
  _insert_leaf t new (p :: dirs) =
  (child <- get_child t p ;;
   child <- _insert_leaf child new dirs ;;
   Node_insert t p child).
Proof. destruct dirs; easy. Qed.

Lemma pop_leaf_step t (p : Direction) dirs :
  dirs <> [] ->
  pop_leaf t (p :: dirs) =
  (child <- get_child t p ;;
   ' (child, leaf) <- pop_leaf child dirs ;;
   node <- Node_insert t p child ;;
   Ok (node, leaf)).
Proof. destruct dirs; easy. Qed.

Lemma snoc_nonempty parent (d : Direction) : parent ++ [d] <> [].
Proof. destruct parent; easy. Qed.

(* [_insert_leaf] reaches the parent and fills the free slot below it;
   nothing else changes. *)
Lemma _insert_leaf_spec parent (d : Direction) t (v : T) :
  data_at t parent <> None ->
  data_at t (parent ++ [d]) = None ->
  exists t',
    _insert_leaf t (Node_leaf v) (parent ++ [d]) = Ok t' /\
    data_at t' (parent ++ [d]) = Some v /\
    forall qs, qs <> parent ++ [d] -> data_at t' qs = data_at t qs.
Proof.
  revert t. induction parent as [|p ps IH]; intros [|x l r] Hp Hn; try easy.
  - simpl app in *. destruct d; simpl in Hn.
    + destruct l; [|easy]. eexists; split; [reflexivity|]. split; [reflexivity|].
      intros [|[] qs] Hqs; simpl; try reflexivity.
      destruct qs as [|[] ?]; [congruence|reflexivity..].
    + destruct r; [|easy]. eexists; split; [reflexivity|]. split; [reflexivity|].
      intros [|[] qs] Hqs; simpl; try reflexivity.
      destruct qs as [|[] ?]; [congruence|reflexivity..].
  - simpl app in *. rewrite _insert_leaf_step by apply snoc_nonempty.
    destruct p; simpl in Hp, Hn |- *.
    + destruct (IH l Hp Hn) as (l' & -> & Hv & Hrest). simpl.
      eexists; split; [reflexivity|]. split; [exact Hv|].
      intros [|[] qs] Hqs; simpl; try reflexivity.
      apply Hrest. congruence.
    + destruct (IH r Hp Hn) as (r' & -> & Hv & Hrest). simpl.
      eexists; split; [reflexivity|]. split; [exact Hv|].
      intros [|[] qs] Hqs; simpl; try reflexivity.
      apply Hrest. congruence.
Qed.

Lemma root_ok_same_root (cmp : T -> T -> bool) (m : T) (c c' : NodePtr T) :
  data_at c' [] = data_at c [] -> root_ok cmp m c -> root_ok cmp m c'.
Proof.
  destruct c, c'; simpl; try easy. intros [= ->]. easy.
Qed.

(* [pop_leaf] empties the slot at the end of the path and returns a node
   that carries the data of the PARENT of that slot ([node->data]). *)
Lemma pop_leaf_spec parent (d : Direction) t (q : T) :
  data_at t parent = Some q ->
  exists t',
    pop_leaf t (parent ++ [d]) = Ok (t', Node_leaf q) /\
    data_at t' [] = data_at t [] /\
    (forall qs, data_at t' ((parent ++ [d]) ++ qs) = None) /\
    (forall qs, (forall x, qs <> (parent ++ [d]) ++ x) ->
                data_at t' qs = data_at t qs) /\
    (forall cmp, ordered cmp t -> ordered cmp t').
Proof.
  revert t. induction parent as [|p ps IH]; intros [|x l r] Hq; try easy.
  - simpl in Hq. injection Hq as ->. simpl app.
    destruct d; simpl; eexists; (split; [reflexivity|]);
      (split; [reflexivity|]); (split; [reflexivity|]); split.
    + intros [|[] qs] Hqs; simpl; try reflexivity.
      now specialize (Hqs qs).
    + simpl. tauto.
    + intros [|[] qs] Hqs; simpl; try reflexivity.
      now specialize (Hqs qs).
    + simpl. tauto.
  - simpl app. rewrite pop_leaf_step by apply snoc_nonempty.
    destruct p; simpl in Hq |- *.
    + destruct (IH l Hq) as (l' & -> & Hroot & Hbelow & Hrest & Hord). simpl.
      eexists; split; [reflexivity|]. split; [reflexivity|].
      split; [exact Hbelow|]. split.
      * intros [|[] qs] Hqs; simpl; try reflexivity.
        apply Hrest. intros y ->. now apply (Hqs y).
      * intros cmp (Hl & Hr & Hol & Hor). simpl. repeat split; auto.
        exact (root_ok_same_root _ _ _ _ Hroot Hl).
    + destruct (IH r Hq) as (r' & -> & Hroot & Hbelow & Hrest & Hord). simpl.
      eexists; split; [reflexivity|]. split; [reflexivity|].
      split; [exact Hbelow|]. split.
      * intros [|[] qs] Hqs; simpl; try reflexivity.
        apply Hrest. intros y ->. now apply (Hqs y).
      * intros cmp (Hl & Hr & Hol & Hor). simpl. repeat split; auto.
        exact (root_ok_same_root _ _ _ _ Hroot Hr).
Qed.

(* Detaching a leaf frees exactly one cell. *)
Lemma pop_leaf_node_count parent (d : Direction) t t' (leaf : NodePtr T) :
  pop_leaf t (parent ++ [d]) = Ok (t', leaf) ->
  data_at t (parent ++ [d]) <> None ->
  data_at t ((parent ++ [d]) ++ [L]) = None ->
  data_at t ((parent ++ [d]) ++ [R]) = None ->
  node_count t = S (node_count t').
Proof.
  revert t t'. induction parent as [|p ps IH];
    intros t t' Hrun Hocc HL HR; (destruct t as [|x l r]; [easy|]).
  - simpl app in *. destruct d; simpl in Hrun, Hocc, HL, HR;
      injection Hrun as <- _.
    + destruct l as [|y [|? ? ?] [|? ? ?]]; try easy.
    + destruct r as [|y [|? ? ?] [|? ? ?]]; try easy. simpl. lia.
  - simpl app in *. rewrite pop_leaf_step in Hrun by apply snoc_nonempty.
    destruct p; simpl in Hrun, Hocc, HL, HR.
    + destruct (pop_leaf l (ps ++ [d])) as [[l' lf]| |] eqn:El;
        simpl in Hrun; try easy.
      injection Hrun as <- ->. simpl. rewrite (IH _ _ El Hocc HL HR). reflexivity.
    + destruct (pop_leaf r (ps ++ [d])) as [[r' lf]| |] eqn:Er;
        simpl in Hrun; try easy.
      injection Hrun as <- ->. simpl. rewrite (IH _ _ Er Hocc HL HR). lia.
Qed.

(* Filling position [n + 1] of a complete tree of [n] cells. *)
Lemma _insert_leaf_complete (n : N) t (v : T) :
  (1 <= n)%N -> complete n t ->
  exists t',
    _insert_leaf t (Node_leaf v) (get_dirlist (n + 1)) = Ok t' /\
    complete (n + 1) t'.
Proof.
  intros Hn Hc.
  destruct (@get_dirlist_parent (n + 1) ltac:(lia)) as (parent & d & E & Hpar).
  pose proof (position_of_get_dirlist (n := n + 1) ltac:(lia)) as Hpos.
  rewrite E in *.
  destruct (@_insert_leaf_spec parent d t v) as (t' & Hrun & Hv & Hrest).
  - apply Hc. lia.
  - destruct (data_at t (parent ++ [d])) eqn:Hd; [|reflexivity].
    assert (position_of (parent ++ [d]) <= n)%N by (apply Hc; congruence). lia.
  - exists t'. split; [exact Hrun|]. intros qs. split.
    + intros Hqs. destruct (N.eq_dec (position_of qs) (n + 1)) as [->|Hne];
        [lia|].
      rewrite Hrest in Hqs by (intros ->; contradiction).
      apply Hc in Hqs. lia.
    + intros Hqs. destruct (N.eq_dec (position_of qs) (n + 1)) as [Heq|Hne].
      * rewrite <- Hpos in Heq. apply position_of_inj in Heq. subst qs.
        congruence.
      * rewrite Hrest by (intros ->; contradiction). apply Hc. lia.
Qed.

(* Emptying position [n] of a complete tree of [n >= 2] cells. *)
Lemma pop_leaf_complete (n : N) t :
  (2 <= n)%N -> complete n t ->
  exists t' q,
    pop_leaf t (get_dirlist n) = Ok (t', Node_leaf q) /\
    complete (n - 1) t' /\
    data_at t' [] = data_at t [] /\
    (forall cmp, ordered cmp t -> ordered cmp t').
Proof.
  intros Hn Hc.
  destruct (get_dirlist_parent Hn) as (parent & d & E & Hpar).
  pose proof (position_of_get_dirlist (n := n) ltac:(lia)) as Hpos.
  rewrite E in *.
  destruct (data_at t parent) as [q|] eqn:Hq;
    [|exfalso; revert Hq; apply Hc; lia].
  destruct (pop_leaf_spec parent d t Hq)
    as (t' & Hrun & Hroot & Hbelow & Hrest & Hord).
  exists t', q. split; [exact Hrun|].
  split; [|split; [exact Hroot|exact Hord]].
  intros qs. split.
  - intros Hqs.
    assert (Hext : forall x, qs <> (parent ++ [d]) ++ x).
    { intros x ->. now rewrite Hbelow in Hqs. }
    rewrite Hrest in Hqs by exact Hext. apply Hc in Hqs.
    assert (position_of qs <> n).
    { intros Heq. rewrite <- Hpos in Heq. apply position_of_inj in Heq.
      apply (Hext []). now rewrite app_nil_r. }
    lia.
  - intros Hqs.
    assert (Hext : forall x, qs <> (parent ++ [d]) ++ x).
    { intros x ->. rewrite position_of_app in Hqs.
      pose proof (fold_descend_ge x (position_of (parent ++ [d]))). lia. }
    rewrite Hrest by exact Hext. apply Hc. lia.
Qed.

(* A complete tree of [n] cells has [n] cells. *)
Lemma complete_node_count (n : N) t :
  complete n t -> node_count t = N.to_nat n.
Proof.
  revert t. induction n as [|n IH] using N.peano_ind; intros t Hc.
  - now rewrite (complete_0 Hc).
  - destruct (N.eq_dec n 0) as [->|Hn].
    + pose proof (@complete_nonempty T _ _ Hc ltac:(lia)) as Hne.
      destruct t as [|x l r]; [easy|].
      assert (Hl : data_at (Node x l r) [L] = None).
      { destruct (data_at (Node x l r) [L]) eqn:E; [|reflexivity].
        assert (position_of [L] <= N.succ 0)%N by (apply Hc; congruence).
        unfold position_of in *. simpl in *. lia. }
      assert (Hr : data_at (Node x l r) [R] = None).
      { destruct (data_at (Node x l r) [R]) eqn:E; [|reflexivity].
        assert (position_of [R] <= N.succ 0)%N by (apply Hc; congruence).
        unfold position_of in *. simpl in *. lia. }
      simpl in Hl, Hr. destruct l, r; easy.
    + destruct (@pop_leaf_complete (N.succ n) t ltac:(lia) Hc)
        as (t' & q & Hpop & Hc' & _).
      destruct (@get_dirlist_parent (N.succ n) ltac:(lia))
        as (parent & d & E & Hpar).
      pose proof (position_of_get_dirlist (n := N.succ n) ltac:(lia)) as Hpos.
      rewrite E in *.
      replace (N.succ n - 1)%N with n in Hc' by lia.
      rewrite (@pop_leaf_node_count parent d t t' _ Hpop), (IH _ Hc'); [lia| | |].
      * apply Hc. lia.
      * destruct (data_at t ((parent ++ [d]) ++ [L])) eqn:Ed; [|reflexivity].
        assert (Hle : (position_of ((parent ++ [d]) ++ [L]) <= N.succ n)%N)
          by (apply Hc; congruence).
        rewrite position_of_snoc, Hpos in Hle. unfold descend in Hle. lia.
      * destruct (data_at t ((parent ++ [d]) ++ [R])) eqn:Ed; [|reflexivity].
        assert (Hle : (position_of ((parent ++ [d]) ++ [R]) <= N.succ n)%N)
          by (apply Hc; congruence).
        rewrite position_of_snoc, Hpos in Hle. unfold descend in Hle. lia.
Qed.

End WalkFacts.

(** ** Restoring the order *)

Section OrderFacts.

Context {T : Type}.
Variable cmp : T -> T -> bool.
Hypothesis Hcmp : consistent cmp.
Implicit Types (t node : NodePtr T) (dirs parent : list Direction).

(* What is in order below [x] is in order below anything [x] may sit under. *)
Lemma root_ok_negtrans (m x : T) (c : NodePtr T) :
  cmp m x = false -> root_ok cmp x c -> root_ok cmp m c.
Proof.
  destruct c as [|y ? ?]; simpl; [easy|].
  intros Hm Hx. exact (cmp_negtrans Hcmp _ _ _ Hm Hx).
Qed.

Lemma _bubble_up_step node (p : Direction) dirs :
  dirs <> [] ->
  _bubble_up cmp node (p :: dirs) =
  (child <- get_child node p ;;
   child_data <- get_data child ;;
   root_data <- get_data node ;;
   child <- _bubble_up cmp child dirs ;;
   node <- Node_insert node p child ;;
   child_data <- get_data child ;;
   root_data <- get_data node ;;
   if cmp root_data child_data then swap_with_child node child p
   else Ok node).
Proof. destruct dirs; easy. Qed.

(* [bubble_down] is defined by cases on the two children; this is the same
   function in the statement order of the source, with [swap_nodes],
   [get_child] and the recursive call on the swapped child. *)
Lemma bubble_down_as_written node :
  bubble_down cmp node =
  (root_data <- get_data node ;;
   left_child <- get_child node L ;;
   right_child <- get_child node R ;;
   match left_child, right_child with
   | EMPTY, _ => Ok node
   | Node left_data _ _, EMPTY =>
       if cmp root_data left_data then swap_with_child node left_child L
       else Ok node
   | Node left_data _ _, Node right_data _ _ =>
       let comp_with_root :=
         if cmp left_data right_data then right_data else left_data in
       if negb (cmp root_data comp_with_root) then Ok node
       else
         let dir := if cmp right_data left_data then L else R in
         child <- get_child node dir ;;
         ' (node, child) <- swap_nodes node child ;;
         child <- bubble_down cmp child ;;
         Node_insert node dir child
   end).
Proof.
  destruct node as [|q [|a ll lr] [|b rl rr]]; simp bubble_down;
    try reflexivity; simpl.
  destruct (negb (cmp q (if cmp a b then b else a))); [reflexivity|].
  destruct (cmp b a); simpl;
    [destruct (bubble_down cmp (Node q ll lr))
    |destruct (bubble_down cmp (Node q rl rr))]; reflexivity.
Qed.

(* [bubble_down] on a left-packed tree whose two subtrees are ordered. *)
Lemma bubble_down_spec node :
  left_packed node ->
  match node with
  | EMPTY => True
  | Node q l r =>
      ordered cmp l -> ordered cmp r ->
      exists t',
        bubble_down cmp node = Ok t' /\
        same_shape node t' /\
        ordered cmp t' /\
        forall m, dominates cmp m node -> root_ok cmp m t'
  end.
Proof.
  apply (bubble_down_elim cmp (fun node res =>
    left_packed node ->
    match node with
    | EMPTY => True
    | Node q l r =>
        ordered cmp l -> ordered cmp r ->
        exists t',
          res = Ok t' /\ same_shape node t' /\ ordered cmp t' /\
          forall m, dominates cmp m node -> root_ok cmp m t'
    end)); clear node.
  - easy.
  - intros q r Hp _ Hr. destruct r; [|now simpl in Hp].
    eexists; split; [reflexivity|]. simpl. tauto.
  - intros q a ll lr ((-> & ->) & _) _ _.
    destruct (cmp q a) eqn:E; eexists; (split; [reflexivity|]); simpl.
    + rewrite (cmp_asym Hcmp _ _ E). tauto.
    + tauto.
  - intros q a ll lr b rl rr IHl IHr (_ & Hpl & Hpr).
    intros (Hall & Halr & Holl & Holr) (Hbrl & Hbrr & Horl & Horr).
    cbv zeta in *.
    destruct (cmp q (if cmp a b then b else a)) eqn:Eq; simpl negb; cbv iota.
    + destruct (cmp b a) eqn:Eba.
      * (* dir = L *)
        assert (Eab : cmp a b = false) by (apply (cmp_asym Hcmp), Eba).
        rewrite Eab in Eq.
        destruct (IHl Hpl Holl Holr) as (c' & -> & Hs & Ho & Hd).
        simpl. eexists; split; [reflexivity|]. split; [|split].
        -- simpl. simpl in Hs. split; [exact Hs|auto using same_shape_refl].
        -- simpl. repeat split; auto.
           apply Hd. simpl. rewrite (cmp_asym Hcmp _ _ Eq). auto.
        -- intros m (_ & Hm & _). exact Hm.
      * (* dir = R *)
        assert (Ebq : cmp b q = false).
        { destruct (cmp a b) eqn:Eab.
          - apply (cmp_asym Hcmp), Eq.
          - apply (cmp_negtrans Hcmp) with (b := a); [exact Eba|].
            apply (cmp_asym Hcmp), Eq. }
        destruct (IHr Hpr Horl Horr) as (c' & -> & Hs & Ho & Hd).
        simpl. eexists; split; [reflexivity|]. split; [|split].
        -- simpl. simpl in Hs. split; [auto using same_shape_refl|exact Hs].
        -- simpl. repeat split; auto.
           apply Hd. simpl. auto.
        -- intros m (_ & _ & Hm). exact Hm.
    + eexists; split; [reflexivity|]. split; [apply same_shape_refl|].
      assert (cmp q a = false /\ cmp q b = false) as [Eqa Eqb].
      { destruct (cmp a b) eqn:Eab.
        - split; [|exact Eq].
          destruct (cmp q a) eqn:Eqa; [|reflexivity].
          (* q over a and a over b would put q over b *)
          exfalso.
          assert (C : cmp a b = false).
          { apply (cmp_negtrans Hcmp) with (b := q);
              [apply (cmp_asym Hcmp), Eqa | exact Eq]. }
          congruence.
        - split; [exact Eq|].
          apply (cmp_negtrans Hcmp) with (b := a); assumption. }
      split.
      * simpl. repeat split; auto.
      * intros m (Hm & _). exact Hm.
Qed.

(* Parent/child obligations: by hypothesis, or through asymmetry and
   negative transitivity of the predicate. *)
Ltac in_order :=
  simpl in *; repeat split; try tauto;
  try (eapply root_ok_negtrans; eassumption);
  try (apply (cmp_asym Hcmp); assumption);
  try (eapply (cmp_negtrans Hcmp); eassumption).

(* Attaching a leaf below an occupied cell of an ordered tree and bubbling
   up along the same path gives an ordered tree of the same shape.  The last
   clause is what the caller one level up relies on: the result stays
   ordered when its root is overwritten by something that was in order
   above the old root. *)
Lemma insert_bubble_ordered parent (d : Direction) t (v : T) :
  ordered cmp t ->
  data_at t parent <> None ->
  exists t1 t2,
    _insert_leaf t (Node_leaf v) (parent ++ [d]) = Ok t1 /\
    _bubble_up cmp t1 (parent ++ [d]) = Ok t2 /\
    t1 <> EMPTY /\
    same_shape t1 t2 /\
    ordered cmp t2 /\
    forall m, root_ok cmp m t -> ordered cmp (with_data m t2).
Proof.
  revert t. induction parent as [|p ps IH]; intros t Ho Hp;
    (destruct t as [|x l r]; [now simpl in Hp|]);
    destruct Ho as (Hl & Hr & Hol & Hor).
  - simpl app. destruct d.
    + exists (Node x (Node_leaf v) r). destruct (cmp x v) eqn:E.
      * exists (Node v (Node_leaf x) r). split; [reflexivity|].
        split; [simpl; rewrite E; reflexivity|].
        assert (Hvx : cmp v x = false) by (apply (cmp_asym Hcmp), E).
        split; [easy|]. split; [simpl; auto using same_shape_refl|].
        split; [|intros m Hm]; in_order.
      * exists (Node x (Node_leaf v) r). split; [reflexivity|].
        split; [simpl; rewrite E; reflexivity|].
        split; [easy|]. split; [simpl; auto using same_shape_refl|].
        split; [|intros m Hm]; in_order.
    + exists (Node x l (Node_leaf v)). destruct (cmp x v) eqn:E.
      * exists (Node v l (Node_leaf x)). split; [reflexivity|].
        split; [simpl; rewrite E; reflexivity|].
        assert (Hvx : cmp v x = false) by (apply (cmp_asym Hcmp), E).
        split; [easy|]. split; [simpl; auto using same_shape_refl|].
        split; [|intros m Hm]; in_order.
      * exists (Node x l (Node_leaf v)). split; [reflexivity|].
        split; [simpl; rewrite E; reflexivity|].
        split; [easy|]. split; [simpl; auto using same_shape_refl|].
        split; [|intros m Hm]; in_order.
  - simpl app. destruct p; simpl in Hp.
    + destruct (IH l Hol Hp) as (l1 & l2 & Hins & Hup & Hne & Hs & Ho & Hm).
      destruct l1 as [|y1 a1 b1]; [easy|]. destruct l2 as [|y2 a2 b2]; [easy|].
      exists (Node x (Node y1 a1 b1) r).
      exists (if cmp x y2 then Node y2 (Node x a2 b2) r
              else Node x (Node y2 a2 b2) r).
      split.
      { rewrite _insert_leaf_step by apply snoc_nonempty.
        simpl. rewrite Hins. reflexivity. }
      split.
      { rewrite _bubble_up_step by apply snoc_nonempty.
        simpl. rewrite Hup. simpl. destruct (cmp x y2); reflexivity. }
      split; [easy|]. specialize (Hm x Hl).
      destruct (cmp x y2) eqn:E.
      * assert (Hyx : cmp y2 x = false) by (apply (cmp_asym Hcmp), E).
        split; [simpl in *; auto using same_shape_refl|].
        split; [|intros m Hmx]; in_order.
      * split; [simpl in *; auto using same_shape_refl|].
        split; [|intros m Hmx]; in_order.
    + destruct (IH r Hor Hp) as (r1 & r2 & Hins & Hup & Hne & Hs & Ho & Hm).
      destruct r1 as [|y1 a1 b1]; [easy|]. destruct r2 as [|y2 a2 b2]; [easy|].
      exists (Node x l (Node y1 a1 b1)).
      exists (if cmp x y2 then Node y2 l (Node x a2 b2)
              else Node x l (Node y2 a2 b2)).
      split.
      { rewrite _insert_leaf_step by apply snoc_nonempty.
        simpl. rewrite Hins. reflexivity. }
      split.
      { rewrite _bubble_up_step by apply snoc_nonempty.
        simpl. rewrite Hup. simpl. destruct (cmp x y2); reflexivity. }
      split; [easy|]. specialize (Hm x Hr).
      destruct (cmp x y2) eqn:E.
      * assert (Hyx : cmp y2 x = false) by (apply (cmp_asym Hcmp), E).
        split; [simpl in *; auto using same_shape_refl|].
        split; [|intros m Hmx]; in_order.
      * split; [simpl in *; auto using same_shape_refl|].
        split; [|intros m Hmx]; in_order.
Qed.

End OrderFacts.

(** ** The heap operations *)

Lemma UINT_MODULUS_eq : UINT_MODULUS = 4294967296%N.
Proof. reflexivity. Qed.

Lemma uint_incr_small (n : N) :
  (n + 1 < UINT_MODULUS)%N -> uint_incr n = (n + 1)%N.
Proof. intros H. unfold uint_incr. now apply N.mod_small. Qed.

Lemma uint_incr_wrap (n : N) :
  (n + 1 = UINT_MODULUS)%N -> uint_incr n = 0%N.
Proof. intros H. unfold uint_incr. rewrite H. now apply N.Div0.mod_same. Qed.

Lemma uint_decr_small (n : N) :
  (1 <= n < UINT_MODULUS)%N -> uint_decr n = (n - 1)%N.
Proof.
  intros H. unfold uint_decr.
  replace (n + UINT_MODULUS - 1)%N with (n - 1 + 1 * UINT_MODULUS)%N by lia.
  rewrite N.Div0.mod_add. apply N.mod_small. lia.
Qed.

Section HeapFacts.

Context {T : Type}.
Implicit Types (h : Heap T) (v : T).

Lemma heap_inv_new (cmp : T -> T -> bool) : heap_inv (Heap_new cmp).
Proof.
  split; [exact I|]. left. split; [apply complete_EMPTY|].
  rewrite UINT_MODULUS_eq. reflexivity.
Qed.

(* Every outcome of [insert] on a heap that satisfies the invariant. *)
Lemma insert_spec h v :
  consistent (compare h) -> heap_inv h ->
  match insert h (Node_leaf v) with
  | Ok h' =>
      heap_inv h' /\ compare h' = compare h /\
      size h' = (size h + 1)%N /\
      complete (size h) (tree h) /\ complete (size h') (tree h')
  | AssertFail => (size h + 1)%N = UINT_MODULUS
  | NullDeref => tree h = EMPTY /\ size h = 1%N
  end.
Proof.
  intros Hcmp [Hord [[Hc Hlt]|[Ht Hs]]]; unfold insert.
  2: { rewrite Ht, Hs. change (uint_incr 1) with 2%N.
       change (get_dirlist 2) with [L]. simpl. auto. }
  destruct (N.eq_dec (size h + 1) UINT_MODULUS) as [Hwrap|Hfit].
  { rewrite (uint_incr_wrap _ Hwrap). change (get_dirlist 0) with (@nil Direction).
    simpl. exact Hwrap. }
  rewrite uint_incr_small by lia.
  destruct (N.eq_dec (size h) 0) as [H0|H0].
  { rewrite H0 in *. change (0 + 1)%N with 1%N.
    change (get_dirlist 1) with (@nil Direction). simpl.
    pose proof (complete_leaf v) as Hleaf.
    split; [|auto]. split; [simpl; easy|]. left. simpl.
    split; [exact Hleaf|]. rewrite UINT_MODULUS_eq. reflexivity. }
  unfold insert_leaf, bubble_up.
  replace (size h + 1 =? 1)%N with false by (symmetry; apply N.eqb_neq; lia).
  replace (1 <? size h + 1)%N with true by (symmetry; apply N.ltb_lt; lia).
  destruct (@get_dirlist_parent (size h + 1) ltac:(lia))
    as (parent & d & E & Hpar).
  destruct (@_insert_leaf_complete T (size h) (tree h) v ltac:(lia) Hc)
    as (t1 & Hins & Hc1).
  assert (Hocc : data_at (tree h) parent <> None) by (apply Hc; lia).
  destruct (insert_bubble_ordered Hcmp parent d (tree h) v Hord Hocc)
    as (t1' & t2 & Hins' & Hup & Hne & Hs & Ho & _).
  rewrite E in *. rewrite Hins in Hins'. injection Hins' as <-.
  rewrite Hins. simpl. rewrite Hup. simpl.
  pose proof (@same_shape_complete T _ _ _ Hs Hc1) as Hc2.
  split; [|auto]. split; [exact Ho|]. left. simpl. split; [exact Hc2|lia].
Qed.

(* Every outcome of [pop_top] on a heap that satisfies the invariant. *)
Lemma pop_top_spec h :
  consistent (compare h) -> heap_inv h ->
  match pop_top h with
  | Ok (v, h') =>
      heap_inv h' /\ compare h' = compare h /\
      data_at (tree h) [] = Some v /\
      complete (size h) (tree h) /\
      if (size h =? 1)%N then tree h' = EMPTY /\ size h' = 1%N
      else complete (size h') (tree h') /\ size h' = (size h - 1)%N
  | AssertFail => tree h = EMPTY /\ size h = 0%N
  | NullDeref => tree h = EMPTY /\ size h = 1%N
  end.
Proof.
  intros Hcmp [Hord [[Hc Hlt]|[Ht Hs]]]; unfold pop_top.
  2: { rewrite Ht, Hs. change (0 <? 1)%N with true. simpl. auto. }
  destruct (N.eq_dec (size h) 0) as [H0|H0].
  { rewrite H0 in *. change (0 <? 0)%N with false. simpl.
    split; [now apply complete_0|reflexivity]. }
  replace (0 <? size h)%N with true by (symmetry; apply N.ltb_lt; lia).
  simpl negb. cbv iota.
  pose proof (@complete_nonempty T _ _ Hc ltac:(lia)) as Hne.
  destruct (tree h) as [|x l r] eqn:Et; [easy|]. simpl.
  destruct (N.eq_dec (size h) 1) as [H1|H1].
  { rewrite H1 in *. change (1 =? 1)%N with true. simpl.
    split; [|auto]. split; [exact I|]. right. auto. }
  replace (size h =? 1)%N with false by (symmetry; apply N.eqb_neq; lia).
  destruct (@pop_leaf_complete T (size h) (Node x l r) ltac:(lia) Hc)
    as (t' & q & Hpop & Hc' & _ & Hord').
  rewrite Hpop. simpl.
  pose proof (@complete_nonempty T _ _ Hc' ltac:(lia)) as Hne'.
  destruct t' as [|x' l' r']; [easy|]. simpl.
  specialize (Hord' _ Hord). destruct Hord' as (_ & _ & Hol & Hor).
  pose proof (complete_left_packed Hc') as Hp.
  destruct (bubble_down_spec Hcmp (Node q l' r') Hp Hol Hor)
    as (t'' & -> & Hs & Ho & _).
  simpl. rewrite uint_decr_small by lia.
  assert (Hc'' : complete (size h - 1) t'').
  { apply same_shape_complete with (t := Node x' l' r'); [exact Hs|exact Hc']. }
  split; [|auto]. split; [exact Ho|]. left. simpl. split; [exact Hc''|lia].
Qed.

End HeapFacts.

(** ** Sequences of operations keep the invariant *)

Section RunFacts.

Context {T : Type}.
Implicit Types (h : Heap T) (ops : list (Op T)).

Lemma step_inv h (o : Op T) h' :
  consistent (compare h) -> heap_inv h -> step h o = Ok h' ->
  heap_inv h' /\ compare h' = compare h.
Proof.
  intros Hcmp Hinv Hstep. destruct o as [v|]; simpl in Hstep.
  - pose proof (insert_spec v Hcmp Hinv) as H.
    rewrite Hstep in H. tauto.
  - pose proof (pop_top_spec Hcmp Hinv) as H.
    destruct (pop_top h) as [[v h'']| |]; simpl in Hstep; try easy.
    injection Hstep as ->. tauto.
Qed.

Lemma run_inv ops h h' :
  consistent (compare h) -> heap_inv h -> run h ops = Ok h' ->
  heap_inv h' /\ compare h' = compare h.
Proof.
  revert h. induction ops as [|o ops IH]; intros h Hcmp Hinv Hrun; simpl in Hrun.
  - injection Hrun as <-. auto.
  - destruct (step h o) as [h1| |] eqn:Hstep; simpl in Hrun; try easy.
    destruct (step_inv _ Hcmp Hinv Hstep) as [Hinv1 Hc1].
    rewrite <- Hc1 in Hcmp. destruct (IH h1 Hcmp Hinv1 Hrun) as [? ?].
    split; [assumption|congruence].
Qed.

(* Every completed [insert] adds one cell, every completed [pop_top] frees
   one. *)
Lemma step_cells h (o : Op T) h' :
  consistent (compare h) -> heap_inv h -> step h o = Ok h' ->
  match o with
  | OpInsert _ => cells h' = S (cells h)
  | OpPopTop => cells h = S (cells h')
  end.
Proof.
  intros Hcmp Hinv Hstep. unfold cells. destruct o as [v|]; simpl in Hstep.
  - pose proof (insert_spec v Hcmp Hinv) as H. rewrite Hstep in H.
    destruct H as (_ & _ & Hsz & Hc & Hc').
    rewrite (complete_node_count Hc), (complete_node_count Hc'). lia.
  - pose proof (pop_top_spec Hcmp Hinv) as H.
    destruct (pop_top h) as [[v h'']| |]; simpl in Hstep; try easy.
    injection Hstep as ->. destruct H as (_ & _ & Hroot & Hc & H).
    rewrite (complete_node_count Hc).
    destruct (N.eqb_spec (size h) 1) as [H1|H1].
    + destruct H as [-> _]. rewrite H1. reflexivity.
    + destruct H as [Hc' Hsz]. rewrite (complete_node_count Hc').
      assert (Hpos : (position_of [] <= size h)%N) by (apply Hc; congruence).
      change (position_of []) with 1%N in Hpos. lia.
Qed.

(* On a run that completes the tree is a complete binary tree, and its
   cells are the inserts that were not popped. *)
Lemma run_cells ops h h' :
  consistent (compare h) -> heap_inv h -> run h ops = Ok h' ->
  cells h' + pops_in ops = cells h + inserts_in ops.
Proof.
  revert h. induction ops as [|o ops IH]; intros h Hcmp Hinv Hrun; simpl in Hrun.
  - injection Hrun as <-. simpl. lia.
  - destruct (step h o) as [h1| |] eqn:Hstep; simpl in Hrun; try easy.
    destruct (step_inv _ Hcmp Hinv Hstep) as [Hinv1 Hc1].
    pose proof (step_cells _ Hcmp Hinv Hstep) as Hcells.
    rewrite <- Hc1 in Hcmp. specialize (IH h1 Hcmp Hinv1 Hrun).
    destruct o; simpl; lia.
Qed.

Lemma completed_run_shape (cmp : T -> T -> bool) ops h :
  consistent cmp -> run (Heap_new cmp) ops = Ok h ->
  complete (N.of_nat (cells h)) (tree h) /\
  left_packed (tree h) /\
  cells h + pops_in ops = inserts_in ops.
Proof.
  intros Hcmp Hrun.
  destruct (run_inv ops (h := Heap_new cmp) Hcmp (heap_inv_new cmp) Hrun)
    as [[_ Hshape] _].
  assert (Hc : complete (N.of_nat (cells h)) (tree h)).
  { unfold cells. destruct Hshape as [[Hc _]|[-> _]].
    - rewrite (complete_node_count Hc), N2Nat.id. exact Hc.
    - apply complete_EMPTY. }
  split; [exact Hc|]. split; [exact (complete_left_packed Hc)|].
  exact (run_cells ops (h := Heap_new cmp) Hcmp (heap_inv_new cmp) Hrun).
Qed.

(* The recursive and the path-wise reading of heap order agree. *)
Lemma ordered_data_at (cmp : T -> T -> bool) (t : NodePtr T) :
  ordered cmp t ->
  forall dirs d p c,
    data_at t dirs = Some p -> data_at t (dirs ++ [d]) = Some c ->
    cmp p c = false.
Proof.
  intros Hord dirs. revert t Hord.
  induction dirs as [|q dirs IH]; intros [|x l r] Hord d p c Hp Hc; try easy.
  - simpl in Hp, Hc. injection Hp as ->. destruct Hord as (Hl & Hr & _).
    destruct d; [destruct l|destruct r]; simpl in *; congruence.
  - destruct Hord as (_ & _ & Hol & Hor).
    destruct q; simpl in Hp, Hc; eauto.
Qed.

End RunFacts.

(** ** The default and the reversed predicate on [int] *)

Lemma consistent_gtb : consistent Z.gtb.
Proof.
  split.
  - intros a b H. rewrite Z.gtb_ltb in *. apply Z.ltb_lt in H.
    apply Z.ltb_ge. lia.
  - intros a b c H1 H2. rewrite Z.gtb_ltb in *.
    apply Z.ltb_ge in H1, H2. apply Z.ltb_ge. lia.
Qed.

Lemma consistent_ltb : consistent Z.ltb.
Proof.
  split.
  - intros a b H. apply Z.ltb_lt in H. apply Z.ltb_ge. lia.
  - intros a b c H1 H2. apply Z.ltb_ge in H1, H2. apply Z.ltb_ge. lia.
Qed.

(* Without consistency there is nothing to keep: a predicate that always
   signals a violation does so on the two cells left by two inserts. *)
Example order_needs_consistency :
  (h <- run (Heap_new (fun _ _ : Z => true)) [OpInsert 1; OpInsert 2]%Z ;;
   Ok (tree h)) = Ok (Node 2 (Node_leaf 1) EMPTY)%Z.
Proof. reflexivity. Qed.

(** * The claims *)

(** C1. Order invariant.  Take a heap constructed with a consistent
    predicate (a strict weak order) and run any sequence of [insert] and
    [pop_top] calls on it.  In the heap that any such run leaves, and so
    after every operation of the run, for every node [p] with a child [c],
    [predicate(p.value, c.value)] is false. *)
Theorem order_invariant (T : Type) (cmp : T -> T -> bool)
  (ops : list (Op T)) (h : Heap T) :
  consistent cmp ->
  run (Heap_new cmp) ops = Ok h ->
  forall dirs d p c,
    data_at (tree h) dirs = Some p ->
    data_at (tree h) (dirs ++ [d]) = Some c ->
    compare h p c = false.
Proof.
  intros Hcmp Hrun.
  destruct (run_inv ops (h := Heap_new cmp) Hcmp (heap_inv_new cmp) Hrun)
    as [[Hord _] Hc].
  apply ordered_data_at. exact Hord.
Qed.

Lemma order_invariant_witness :
  consistent Z.gtb /\
  run Heap_default (map (@OpInsert Z) [5; 3; 8; 1; 9; 2] ++ [OpPopTop])%Z =
    Ok {| tree := Node 2 (Node 3 (Node_leaf 5) (Node_leaf 9)) (Node_leaf 2);
          size := 5; compare := Z.gtb |}%Z /\
  Z.gtb 3 9 = false.
Proof.
  split; [exact consistent_gtb|]. split; [reflexivity|].
  refine (@order_invariant Z Z.gtb
            (map (@OpInsert Z) [5; 3; 8; 1; 9; 2] ++ [OpPopTop])%Z
            {| tree := Node 2 (Node 3 (Node_leaf 5) (Node_leaf 9)) (Node_leaf 2);
               size := 5; compare := Z.gtb |}%Z
            consistent_gtb _ [L] R 3 9 _ _)%Z; reflexivity.
Defined.

(** C6. Path encoder.  For every [n >= 1], [get_dirlist(n)] is the binary
    representation of [n] without its leading digit, most significant digit
    first, with 0 read as Left and 1 as Right: it has [log2 n] elements and
    its [i]-th element is digit [log2 n - 1 - i] of [n].  Following it from
    the root, where the children of position [k] are [2k] and [2k+1],
    reaches position [n]; for [n = 1] it is empty. *)
Theorem get_dirlist_binary_digits (n : N) :
  (1 <= n)%N ->
  length (get_dirlist n) = N.to_nat (N.log2 n) /\
  (forall i, i < length (get_dirlist n) ->
     nth i (get_dirlist n) L =
     dir_of_bit (N.testbit n (N.log2 n - 1 - N.of_nat i))) /\
  position_of (get_dirlist n) = n /\
  get_dirlist 1 = [].
Proof.
  intros Hn. split; [now apply get_dirlist_length|].
  split; [intros i; now apply get_dirlist_nth|].
  split; [now apply position_of_get_dirlist|reflexivity].
Qed.

Lemma get_dirlist_binary_digits_witness :
  (1 <= 6)%N /\
  get_dirlist 6 = [R; L] /\
  length (get_dirlist 6) = N.to_nat (N.log2 6) /\
  nth 0 (get_dirlist 6) L = dir_of_bit (N.testbit 6 1) /\
  nth 1 (get_dirlist 6) L = dir_of_bit (N.testbit 6 0) /\
  position_of (get_dirlist 6) = 6%N.
Proof.
  assert (H6 : (1 <= 6)%N) by lia.
  destruct (get_dirlist_binary_digits H6) as (Hlen & Hnth & Hpos & _).
  split; [exact H6|]. split; [reflexivity|]. split; [exact Hlen|].
  split; [apply (Hnth 0); vm_compute; lia|].
  split; [apply (Hnth 1); vm_compute; lia|exact Hpos].
Defined.

(** X25. [get_top()] and [pop_top()] read the same root.  On every heap
    that a run of operations leaves (predicate consistent), [get_top()]
    returns [v] exactly when [pop_top()] returns [v], and both do return as
    soon as the tree has a root.  (In the state with no tree and [size]
    still 1 neither call returns a value.) *)
Theorem get_top_agrees_with_pop_top (T : Type) (cmp : T -> T -> bool)
  (ops : list (Op T)) (h : Heap T) :
  consistent cmp ->
  run (Heap_new cmp) ops = Ok h ->
  (forall v, get_top h = Ok v <-> exists h', pop_top h = Ok (v, h')) /\
  (tree h <> EMPTY ->
   exists v h', get_top h = Ok v /\ pop_top h = Ok (v, h')).
Proof.
  intros Hcmp Hrun.
  destruct (run_inv ops (h := Heap_new cmp) Hcmp (heap_inv_new cmp) Hrun)
    as [Hinv Hc].
  assert (Hcmp' : consistent (compare h)) by (rewrite Hc; exact Hcmp).
  pose proof (pop_top_spec Hcmp' Hinv) as Hpop.
  assert (Hiff : forall v,
            get_top h = Ok v <-> exists h', pop_top h = Ok (v, h')).
  { intros v. unfold get_top.
    destruct (pop_top h) as [[w h'']| |].
    - destruct Hpop as (_ & _ & Hroot & _).
      destruct (tree h) as [|x l r]; simpl in Hroot; [easy|].
      injection Hroot as ->. split.
      + intros [= ->]. now exists h''.
      + intros (h' & [= -> _]). reflexivity.
    - destruct Hpop as [-> _]. split; [easy|now intros (h' & ?)].
    - destruct Hpop as [-> _]. split; [easy|now intros (h' & ?)]. }
  split; [exact Hiff|]. intros Hne.
  destruct (tree h) as [|x l r] eqn:Et; [easy|].
  assert (Hg : get_top h = Ok x) by (unfold get_top; now rewrite Et).
  destruct (proj1 (Hiff x) Hg) as (h' & Hp). eauto.
Qed.

Lemma get_top_agrees_with_pop_top_witness :
  consistent Z.gtb /\
  run Heap_default (map (@OpInsert Z) [5; 3; 8])%Z =
    Ok {| tree := Node 3 (Node_leaf 5) (Node_leaf 8);
          size := 3; compare := Z.gtb |}%Z /\
  exists v h',
    get_top {| tree := Node 3 (Node_leaf 5) (Node_leaf 8);
               size := 3; compare := Z.gtb |}%Z = Ok v /\
    pop_top {| tree := Node 3 (Node_leaf 5) (Node_leaf 8);
               size := 3; compare := Z.gtb |}%Z = Ok (v, h').
Proof.
  split; [exact consistent_gtb|]. split; [reflexivity|].
  refine (proj2 (@get_top_agrees_with_pop_top Z Z.gtb
            (map (@OpInsert Z) [5; 3; 8])%Z
            {| tree := Node 3 (Node_leaf 5) (Node_leaf 8);
               size := 3; compare := Z.gtb |}%Z
            consistent_gtb _) _); [reflexivity|easy].
Defined.

(** C10. [get_top()] and [pop_top()] on a heap with size >= 1.  The claim
    says that on every such heap both return the root value.  After one
    insert and one pop [get_size()] is still 1, and on that heap neither
    call returns a value: [get_top()] stops on its assertion and
    [pop_top()] passes [assert(size > 0)] and dereferences the null tree. *)
Theorem get_top_and_pop_top_at_size_one_without_tree (T : Type)
  (cmp : T -> T -> bool) (v : T) :
  exists h,
    run (Heap_new cmp) [OpInsert v; OpPopTop] = Ok h /\
    (1 <= get_size h)%N /\
    get_top h = AssertFail /\
    pop_top h = NullDeref.
Proof.
  exists {| tree := EMPTY; size := 1; compare := cmp |}.
  split; [reflexivity|]. split; [unfold get_size; simpl; lia|].
  split; reflexivity.
Qed.

(** C2. Shape invariant.  The claim promises a complete tree of [N - M]
    cells after any [N] inserts and [M] pops that never pop an empty heap.
    One insert, one pop and one more insert is such a sequence, and the
    second insert dereferences the null tree: [pop_top] on a one-element
    heap leaves [size] at 1, so [insert] walks to "position 2" of a tree
    that has no root. *)
Theorem insert_after_emptying_has_no_tree :
  run Heap_default [OpInsert 1; OpPopTop; OpInsert 2]%Z = NullDeref.
Proof. reflexivity. Qed.

(** C3. Promotion of the detached leaf.  With 1, 2, 3, 4 inserted the last
    position (4) holds 4 and its parent holds 2.  [pop_leaf] detaches the
    leaf but returns a node carrying the parent's data 2, and [pop_top]
    writes that 2 into the root: 4 is gone and 2 is there twice. *)
Theorem pop_top_promotes_parent_data :
  (h <- run Heap_default (map (@OpInsert Z) [1; 2; 3; 4])%Z ;;
   Ok (snapshot h)) =
    Ok (Node 1 (Node 2 (Node_leaf 4) EMPTY) (Node_leaf 3), 4%N)%Z /\
  pop_leaf (Node 1 (Node 2 (Node_leaf 4) EMPTY) (Node_leaf 3))%Z
           (get_dirlist 4) =
    Ok (Node 1 (Node_leaf 2) (Node_leaf 3), Node_leaf 2)%Z /\
  (h <- run Heap_default (map (@OpInsert Z) [1; 2; 3; 4])%Z ;;
   ' (v, h) <- pop_top h ;;
   Ok (v, snapshot h)) =
    Ok (1, (Node 2 (Node_leaf 2) (Node_leaf 3), 3%N))%Z.
Proof. repeat split; reflexivity. Qed.

(** C4. Size accounting.  After one insert and one pop [get_size()] is 1,
    not 0: the [size == 1] branch of [pop_top] returns without [size--]. *)
Theorem size_after_popping_last_element (T : Type) (cmp : T -> T -> bool)
  (v : T) :
  (h <- run (Heap_new cmp) [OpInsert v; OpPopTop] ;; Ok (get_size h)) =
  Ok 1%N.
Proof. reflexivity. Qed.

(** C5. Extraction order.  With 5, 3, 8, 1, 9, 2 inserted in a default
    heap, six calls of [pop_top] return 1, 2, 2, 3, 3, 3 (not 1, 2, 3, 5, 8,
    9) and [get_size()] is then 1 (not 0). *)
Theorem extraction_order_default :
  (h <- run Heap_default (map (@OpInsert Z) [5; 3; 8; 1; 9; 2])%Z ;;
   ' (vs, h) <- pop_n h 6 ;;
   Ok (vs, get_size h)) =
  Ok ([1; 2; 2; 3; 3; 3]%Z, 1%N).
Proof. reflexivity. Qed.

(** C7. Single-element round trip.  After [insert(v)] on an empty heap
    [get_top()] returns [v] and leaves the heap as it is, and [pop_top()]
    returns [v]; but [get_size()] is then 1, not 0. *)
Theorem single_element_round_trip (T : Type) (cmp : T -> T -> bool) (v : T) :
  insert (Heap_new cmp) (Node_leaf v) =
    Ok {| tree := Node_leaf v; size := 1; compare := cmp |} /\
  get_top {| tree := Node_leaf v; size := 1; compare := cmp |} = Ok v /\
  pop_top {| tree := Node_leaf v; size := 1; compare := cmp |} =
    Ok (v, {| tree := EMPTY; size := 1; compare := cmp |}) /\
  get_size {| tree := EMPTY; size := 1; compare := cmp |} = 1%N.
Proof. repeat split; reflexivity. Qed.

(** C8. Fatal on empty.  On a fresh heap both [get_top()] and [pop_top()]
    stop on their assertion.  On the empty heap left by one insert and one
    pop, [get_top()] still stops on its assertion, but [pop_top()] passes
    [assert(size > 0)] (size is still 1) and dereferences the null tree. *)
Theorem pop_top_on_emptied_heap (T : Type) (cmp : T -> T -> bool) (v : T) :
  get_top (Heap_new cmp) = AssertFail /\
  (' (w, _) <- pop_top (Heap_new cmp) ;; Ok w) = AssertFail /\
  run (Heap_new cmp) [OpInsert v; OpPopTop] =
    Ok {| tree := EMPTY; size := 1; compare := cmp |} /\
  get_top {| tree := EMPTY; size := 1; compare := cmp |} = AssertFail /\
  (' (w, _) <- pop_top {| tree := EMPTY; size := 1; compare := cmp |} ;;
   Ok w) = NullDeref.
Proof. repeat split; reflexivity. Qed.

(** C9. Custom predicate.  With the predicate [a < b] and 1, 4, 2, 9, 5
    inserted, five calls of [pop_top] return 9, 5, 5, 5, 5, not
    9, 5, 4, 2, 1. *)
Theorem extraction_order_custom :
  (h <- run (Heap_new Z.ltb) (map (@OpInsert Z) [1; 4; 2; 9; 5])%Z ;;
   ' (vs, h) <- pop_n h 5 ;;
   Ok vs) =
  Ok [9; 5; 5; 5; 5]%Z.
Proof. reflexivity. Qed.

(** * Further properties of the code *)

(** ** The path encoder *)

Lemma _get_dirlist_acc (n : N) (acc : list Direction) :
  _get_dirlist n acc = get_dirlist n ++ acc.
Proof.
  destruct n as [|p]; [reflexivity|]. apply _get_dirlist_pos_acc.
Qed.

Lemma get_dirlist_length_le (n : N) :
  (n < UINT_MODULUS)%N -> length (get_dirlist n) <= 31.
Proof.
  intros Hn. destruct (N.eq_dec n 0) as [->|H0];
    [rewrite get_dirlist_0; simpl; lia|].
  rewrite get_dirlist_length by lia.
  assert (N.log2 n < 32)%N; [|lia].
  apply N.log2_lt_pow2; [lia|]. exact Hn.
Qed.

(* A path of [k] steps leads to a position below [2^(k+1)]. *)
Lemma position_of_lt (dirs : list Direction) :
  (position_of dirs < 2 ^ N.of_nat (S (length dirs)))%N.
Proof.
  induction dirs as [|d dirs IH] using rev_ind.
  - reflexivity.
  - rewrite position_of_snoc, length_app. simpl length.
    replace (N.of_nat (S (length dirs + 1)))
      with (N.succ (N.of_nat (S (length dirs)))) by lia.
    rewrite N.pow_succ_r by lia.
    destruct d; unfold descend; lia.
Qed.

(** X1. Decoding then encoding: for every sequence of at most 31
    directions (the paths that a [uint] position has), the position the
    sequence leads to is a [uint] value, at least 1, and [get_dirlist] of
    that position is that sequence. *)
Theorem get_dirlist_of_position (dirs : list Direction) :
  length dirs <= 31 ->
  (1 <= position_of dirs < UINT_MODULUS)%N /\
  get_dirlist (position_of dirs) = dirs.
Proof.
  intros Hlen. split; [|apply get_dirlist_position_of].
  split; [apply position_of_pos|].
  apply N.lt_le_trans with (2 ^ N.of_nat (S (length dirs)))%N;
    [apply position_of_lt|].
  unfold UINT_MODULUS, UINT_WIDTH. apply N.pow_le_mono_r; lia.
Qed.

Lemma get_dirlist_of_position_witness :
  length [R; L; R] <= 31 /\
  (1 <= position_of [R; L; R] < UINT_MODULUS)%N /\
  get_dirlist (position_of [R; L; R]) = [R; L; R].
Proof.
  assert (Hlen : length [R; L; R] <= 31) by (simpl; lia).
  split; [exact Hlen|]. exact (get_dirlist_of_position [R; L; R] Hlen).
Defined.

(** X2. [get_dirlist] is injective on positions: two positions [n, m >= 1]
    with the same direction stack are equal. *)
Theorem get_dirlist_injective (n m : N) :
  (1 <= n)%N -> (1 <= m)%N -> get_dirlist n = get_dirlist m -> n = m.
Proof.
  intros Hn Hm E.
  rewrite <- (position_of_get_dirlist Hn), <- (position_of_get_dirlist Hm).
  now rewrite E.
Qed.

Lemma get_dirlist_injective_witness :
  (1 <= 5)%N /\ (1 <= 4 + 1)%N /\ get_dirlist 5 = get_dirlist (4 + 1) /\
  5%N = (4 + 1)%N.
Proof.
  assert (H5 : (1 <= 5)%N) by lia.
  assert (H41 : (1 <= 4 + 1)%N) by lia.
  assert (E : get_dirlist 5 = get_dirlist (4 + 1)) by reflexivity.
  split; [exact H5|]. split; [exact H41|]. split; [exact E|].
  exact (get_dirlist_injective H5 H41 E).
Defined.

(** X3. [_get_dirlist] only pushes: called with a stack that already holds
    directions, it returns the directions for [n] on top of that stack, which
    it leaves untouched at the bottom (for every [n], 0 included). *)
Theorem _get_dirlist_pushes_on_top (n : N) (directions : list Direction) :
  _get_dirlist n directions = get_dirlist n ++ directions.
Proof. apply _get_dirlist_acc. Qed.

(** X4. Depth of the walk: for every [uint] value [n] the stack holds at
    most 31 directions, and it is empty exactly when [n < 2]. *)
Theorem get_dirlist_depth (n : N) :
  (n < UINT_MODULUS)%N ->
  length (get_dirlist n) <= 31 /\ (get_dirlist n = [] <-> (n < 2)%N).
Proof.
  intros Hn. split; [now apply get_dirlist_length_le|]. split.
  - intros E. destruct (N.lt_ge_cases n 2) as [H|H]; [exact H|].
    now apply get_dirlist_nonempty in H.
  - intros H. rewrite <- (app_nil_r (get_dirlist n)), <- _get_dirlist_acc.
    rewrite _get_dirlist_eq.
    now replace (n <? 2)%N with true by (symmetry; apply N.ltb_lt; exact H).
Qed.

Lemma get_dirlist_depth_witness :
  (4294967295 < UINT_MODULUS)%N /\
  length (get_dirlist 4294967295) <= 31 /\
  (get_dirlist 4294967295 = [] <-> (4294967295 < 2)%N).
Proof.
  assert (H : (4294967295 < UINT_MODULUS)%N) by reflexivity.
  split; [exact H|]. exact (get_dirlist_depth H).
Defined.

(** X5. The path to a child is the path to its parent and one more step:
    for [k >= 1] whose children [2k] and [2k+1] are [uint] values,
    [get_dirlist(2k)] is [get_dirlist(k)] followed by Left and
    [get_dirlist(2k+1)] is [get_dirlist(k)] followed by Right. *)
Theorem get_dirlist_child (k : N) :
  (1 <= k)%N ->
  (2 * k + 1 < UINT_MODULUS)%N ->
  get_dirlist (2 * k) = get_dirlist k ++ [L] /\
  get_dirlist (2 * k + 1) = get_dirlist k ++ [R].
Proof.
  intros Hk _. split.
  - exact (get_dirlist_descend L Hk).
  - exact (get_dirlist_descend R Hk).
Qed.

Lemma get_dirlist_child_witness :
  (1 <= 3)%N /\
  (2 * 3 + 1 < UINT_MODULUS)%N /\
  get_dirlist (2 * 3) = get_dirlist 3 ++ [L] /\
  get_dirlist (2 * 3 + 1) = get_dirlist 3 ++ [R].
Proof.
  assert (H : (1 <= 3)%N) by lia.
  assert (Hfit : (2 * 3 + 1 < UINT_MODULUS)%N) by reflexivity.
  split; [exact H|]. split; [exact Hfit|]. exact (get_dirlist_child H Hfit).
Defined.

(** ** The values in the tree *)

Section ElementsFacts.

Context {T : Type}.
Implicit Types (t new : NodePtr T) (dirs qs parent : list Direction).

Lemma perm_swap_right (x y : T) (l m : list T) :
  Permutation (x :: l ++ y :: m) (y :: l ++ x :: m).
Proof.
  apply Permutation_trans with (x :: y :: l ++ m).
  - apply perm_skip. apply Permutation_sym, Permutation_middle.
  - apply Permutation_trans with (y :: x :: l ++ m); [apply perm_swap|].
    apply perm_skip. apply Permutation_middle.
Qed.

Lemma perm_child_left (x : T) (l l' r : NodePtr T) :
  Permutation (elements l) (elements l') ->
  Permutation (elements (Node x l r)) (elements (Node x l' r)).
Proof. intros H. simpl. now apply perm_skip, Permutation_app_tail. Qed.

Lemma perm_child_right (x : T) (l r r' : NodePtr T) :
  Permutation (elements r) (elements r') ->
  Permutation (elements (Node x l r)) (elements (Node x l r')).
Proof. intros H. simpl. now apply perm_skip, Permutation_app_head. Qed.

(* [swap_nodes] on a cell and one of its children keeps the values. *)
Lemma perm_swap_left_child (x y : T) (a b r : NodePtr T) :
  Permutation (elements (Node x (Node y a b) r))
              (elements (Node y (Node x a b) r)).
Proof. simpl. apply perm_swap. Qed.

Lemma perm_swap_right_child (x y : T) (l a b : NodePtr T) :
  Permutation (elements (Node x l (Node y a b)))
              (elements (Node y l (Node x a b))).
Proof. simpl. apply perm_swap_right. Qed.

Lemma data_at_In t dirs (x : T) :
  data_at t dirs = Some x -> In x (elements t).
Proof.
  revert t. induction dirs as [|d dirs IH]; intros [|y l r] H; try easy.
  - simpl in H. injection H as ->. now left.
  - simpl. right. apply in_or_app.
    destruct d; simpl in H; [left|right]; now apply IH.
Qed.

(* Storing a leaf in a free slot adds its value and nothing else. *)
Lemma _insert_leaf_elements parent (d : Direction) t (v : T) t1 :
  data_at t (parent ++ [d]) = None ->
  _insert_leaf t (Node_leaf v) (parent ++ [d]) = Ok t1 ->
  Permutation (elements t1) (v :: elements t).
Proof.
  revert t t1. induction parent as [|p ps IH]; intros t t1 Hn Hrun.
  - simpl app in *. destruct t as [|x l r]; [now destruct d|].
    destruct d; simpl in Hn, Hrun; injection Hrun as <-.
    + destruct l; [|easy]. simpl. apply perm_swap.
    + destruct r; [|easy]. simpl. rewrite app_nil_r.
      apply Permutation_sym.
      apply Permutation_trans with (x :: v :: elements l); [apply perm_swap|].
      apply perm_skip. apply Permutation_cons_append.
  - simpl app in *. rewrite _insert_leaf_step in Hrun by apply snoc_nonempty.
    destruct t as [|x l r]; [easy|].
    destruct p; simpl in Hn, Hrun.
    + destruct (_insert_leaf l (Node_leaf v) (ps ++ [d])) as [l'| |] eqn:El;
        simpl in Hrun; try easy.
      injection Hrun as <-. simpl.
      apply Permutation_trans with (x :: (v :: elements l) ++ elements r).
      * apply perm_skip, Permutation_app_tail. exact (IH _ _ Hn El).
      * apply perm_swap.
    + destruct (_insert_leaf r (Node_leaf v) (ps ++ [d])) as [r'| |] eqn:Er;
        simpl in Hrun; try easy.
      injection Hrun as <-. simpl.
      apply Permutation_trans with (x :: elements l ++ v :: elements r).
      * apply perm_skip, Permutation_app_head. exact (IH _ _ Hn Er).
      * apply Permutation_trans with (x :: v :: elements l ++ elements r);
          [|apply perm_swap].
        apply perm_skip, Permutation_sym, Permutation_middle.
Qed.

(* Detaching a leaf removes its value and nothing else. *)
Lemma pop_leaf_elements parent (d : Direction) t t' (leaf : NodePtr T)
  (lv : T) :
  pop_leaf t (parent ++ [d]) = Ok (t', leaf) ->
  data_at t (parent ++ [d]) = Some lv ->
  data_at t ((parent ++ [d]) ++ [L]) = None ->
  data_at t ((parent ++ [d]) ++ [R]) = None ->
  Permutation (lv :: elements t') (elements t).
Proof.
  revert t t'. induction parent as [|p ps IH];
    intros t t' Hrun Hocc HL HR; (destruct t as [|x l r]; [easy|]).
  - simpl app in *. destruct d; simpl in Hrun, Hocc, HL, HR;
      injection Hrun as <- _.
    + destruct l as [|y [|? ? ?] [|? ? ?]]; try easy.
      injection Hocc as ->. simpl. apply perm_swap.
    + destruct r as [|y [|? ? ?] [|? ? ?]]; try easy.
      injection Hocc as ->. simpl. rewrite app_nil_r.
      apply Permutation_trans with (x :: lv :: elements l); [apply perm_swap|].
      apply perm_skip. apply Permutation_cons_append.
  - simpl app in *. rewrite pop_leaf_step in Hrun by apply snoc_nonempty.
    destruct p; simpl in Hrun, Hocc, HL, HR.
    + destruct (pop_leaf l (ps ++ [d])) as [[l' lf]| |] eqn:El;
        simpl in Hrun; try easy.
      injection Hrun as <- ->. simpl.
      apply Permutation_trans with (x :: (lv :: elements l') ++ elements r);
        [apply perm_swap|].
      apply perm_skip, Permutation_app_tail. exact (IH _ _ El Hocc HL HR).
    + destruct (pop_leaf r (ps ++ [d])) as [[r' lf]| |] eqn:Er;
        simpl in Hrun; try easy.
      injection Hrun as <- ->. simpl.
      apply Permutation_trans with (x :: elements l ++ lv :: elements r').
      * apply Permutation_trans with (x :: lv :: elements l ++ elements r');
          [apply perm_swap|].
        apply perm_skip, Permutation_middle.
      * apply perm_skip, Permutation_app_head. exact (IH _ _ Er Hocc HL HR).
Qed.

End ElementsFacts.

(** ** Every outcome of the tree walks *)

Section WalkOutcomes.

Context {T : Type}.
Variable cmp : T -> T -> bool.

(* Lists of values are compared as wholes here. *)
#[local] Arguments elements : simpl never.
Implicit Types (t new node : NodePtr T) (dirs qs parent : list Direction).

Lemma _insert_leaf_null parent (d : Direction) t new :
  data_at t parent = None ->
  _insert_leaf t new (parent ++ [d]) = NullDeref.
Proof.
  revert t. induction parent as [|p ps IH]; intros t Hn.
  - destruct t; [reflexivity|easy].
  - simpl app. rewrite _insert_leaf_step by apply snoc_nonempty.
    destruct t as [|x l r]; [reflexivity|].
    destruct p; simpl in Hn |- *; now rewrite IH.
Qed.

Lemma _insert_leaf_general parent (d : Direction) t new :
  data_at t parent <> None ->
  exists t',
    _insert_leaf t new (parent ++ [d]) = Ok t' /\
    (forall qs, data_at t' ((parent ++ [d]) ++ qs) = data_at new qs) /\
    (forall qs, (forall x, qs <> (parent ++ [d]) ++ x) ->
                data_at t' qs = data_at t qs).
Proof.
  revert t. induction parent as [|p ps IH]; intros t Hp;
    (destruct t as [|x l r]; [easy|]).
  - simpl app. destruct d; simpl; eexists; (split; [reflexivity|]); split;
      try reflexivity;
      intros [|[] qs] Hqs; simpl; try reflexivity; now specialize (Hqs qs).
  - simpl app. rewrite _insert_leaf_step by apply snoc_nonempty.
    destruct p; simpl in Hp |- *.
    + destruct (IH l Hp) as (l' & -> & Hnew & Hrest). simpl.
      eexists; split; [reflexivity|]. split; [exact Hnew|].
      intros [|[] qs] Hqs; simpl; try reflexivity.
      apply Hrest. intros y ->. now apply (Hqs y).
    + destruct (IH r Hp) as (r' & -> & Hnew & Hrest). simpl.
      eexists; split; [reflexivity|]. split; [exact Hnew|].
      intros [|[] qs] Hqs; simpl; try reflexivity.
      apply Hrest. intros y ->. now apply (Hqs y).
Qed.

Lemma pop_leaf_null parent (d : Direction) t :
  data_at t parent = None -> pop_leaf t (parent ++ [d]) = NullDeref.
Proof.
  revert t. induction parent as [|p ps IH]; intros t Hn.
  - destruct t; [reflexivity|easy].
  - simpl app. rewrite pop_leaf_step by apply snoc_nonempty.
    destruct t as [|x l r]; [reflexivity|].
    destruct p; simpl in Hn |- *; now rewrite IH.
Qed.

Lemma _bubble_up_null dirs t :
  dirs <> [] -> data_at t dirs = None -> _bubble_up cmp t dirs = NullDeref.
Proof.
  revert t. induction dirs as [|d dirs IH]; intros t Hne Hn; [easy|].
  destruct dirs as [|d' ds].
  - destruct t as [|x l r]; [reflexivity|].
    destruct d; simpl in Hn |- *; [destruct l|destruct r]; easy.
  - rewrite _bubble_up_step by easy.
    destruct t as [|x l r]; [reflexivity|].
    destruct d; simpl in Hn; cbn [get_child bind].
    + destruct l as [|y a b]; [reflexivity|]. cbn [get_data bind].
      now rewrite (IH (Node y a b)).
    + destruct r as [|y a b]; [reflexivity|]. cbn [get_data bind].
      now rewrite (IH (Node y a b)).
Qed.

Lemma _bubble_up_total dirs t :
  dirs <> [] -> data_at t dirs <> None ->
  exists t',
    _bubble_up cmp t dirs = Ok t' /\ same_shape t t' /\
    Permutation (elements t) (elements t').
Proof.
  revert t. induction dirs as [|d dirs IH]; intros t Hne Hocc; [easy|].
  destruct t as [|x l r]; [easy|].
  destruct dirs as [|d' ds].
  - destruct d; simpl in Hocc.
    + destruct l as [|y a b]; [easy|]. simpl.
      destruct (cmp x y); simpl; eexists; (split; [reflexivity|]);
        (split; [simpl; auto using same_shape_refl|]).
      * apply perm_swap_left_child.
      * apply Permutation_refl.
    + destruct r as [|y a b]; [easy|]. simpl.
      destruct (cmp x y); simpl; eexists; (split; [reflexivity|]);
        (split; [simpl; auto using same_shape_refl|]).
      * apply perm_swap_right_child.
      * apply Permutation_refl.
  - rewrite _bubble_up_step by easy.
    destruct d; simpl in Hocc; cbn [get_child bind].
    + destruct l as [|y a b]; [easy|]. cbn [get_data bind].
      destruct (IH (Node y a b) ltac:(easy) Hocc) as (l' & -> & Hs & Hperm).
      simpl. destruct l' as [|y' a' b']; [easy|]. simpl.
      destruct (cmp x y'); simpl; eexists; (split; [reflexivity|]);
        (split; [simpl in *; auto using same_shape_refl|]).
      * eapply Permutation_trans;
          [apply perm_child_left, Hperm|apply perm_swap_left_child].
      * apply perm_child_left, Hperm.
    + destruct r as [|y a b]; [easy|]. cbn [get_data bind].
      destruct (IH (Node y a b) ltac:(easy) Hocc) as (r' & -> & Hs & Hperm).
      simpl. destruct r' as [|y' a' b']; [easy|]. simpl.
      destruct (cmp x y'); simpl; eexists; (split; [reflexivity|]);
        (split; [simpl in *; auto using same_shape_refl|]).
      * eapply Permutation_trans;
          [apply perm_child_right, Hperm|apply perm_swap_right_child].
      * apply perm_child_right, Hperm.
Qed.

Lemma bubble_down_total node :
  node <> EMPTY ->
  exists t',
    bubble_down cmp node = Ok t' /\ same_shape node t' /\
    Permutation (elements node) (elements t').
Proof.
  apply (bubble_down_elim cmp (fun node res =>
    node <> EMPTY ->
    exists t',
      res = Ok t' /\ same_shape node t' /\
      Permutation (elements node) (elements t'))); clear node.
  - easy.
  - intros q r _. eexists; split; [reflexivity|].
    split; [apply same_shape_refl|apply Permutation_refl].
  - intros q a ll lr _.
    destruct (cmp q a); eexists; (split; [reflexivity|]);
      (split; [simpl; auto using same_shape_refl|]).
    + apply perm_swap_left_child.
    + apply Permutation_refl.
  - intros q a ll lr b rl rr IHl IHr _. cbv zeta in *.
    destruct (negb (cmp q (if cmp a b then b else a))).
    { eexists; split; [reflexivity|].
      split; [apply same_shape_refl|apply Permutation_refl]. }
    destruct (cmp b a).
    + destruct (IHl ltac:(easy)) as (c' & -> & Hs & Hperm). simpl.
      eexists; split; [reflexivity|].
      split; [simpl in *; auto using same_shape_refl|].
      eapply Permutation_trans;
        [apply perm_swap_left_child|apply perm_child_left, Hperm].
    + destruct (IHr ltac:(easy)) as (c' & -> & Hs & Hperm). simpl.
      eexists; split; [reflexivity|].
      split; [simpl in *; auto using same_shape_refl|].
      eapply Permutation_trans;
        [apply perm_swap_right_child|apply perm_child_right, Hperm].
Qed.

Lemma bubble_down_in_order (q : T) (l r : NodePtr T) :
  root_ok cmp q l -> root_ok cmp q r ->
  bubble_down cmp (Node q l r) = Ok (Node q l r).
Proof.
  intros Hl Hr. destruct l as [|a ll lr], r as [|b rl rr];
    simp bubble_down; simpl in *; try reflexivity.
  - now rewrite Hl.
  - destruct (cmp a b); [rewrite Hr|rewrite Hl]; reflexivity.
Qed.

End WalkOutcomes.

(** X6. [_insert_leaf] on any tree, node and direction stack.  It stops on
    its assertion exactly when the stack is empty, dereferences null exactly
    when the cell above the target slot does not exist, and otherwise
    returns: the target slot then holds the inserted node (whatever was
    there before is overwritten) and every cell outside that slot is
    unchanged. *)
Theorem _insert_leaf_outcome (T : Type) (t new : NodePtr T)
  (dirs : list Direction) :
  match _insert_leaf t new dirs with
  | Ok t' =>
      exists parent d,
        dirs = parent ++ [d] /\ data_at t parent <> None /\
        (forall qs, data_at t' (dirs ++ qs) = data_at new qs) /\
        (forall qs, (forall x, qs <> dirs ++ x) ->
                    data_at t' qs = data_at t qs)
  | AssertFail => dirs = []
  | NullDeref =>
      exists parent d, dirs = parent ++ [d] /\ data_at t parent = None
  end.
Proof.
  destruct dirs as [|d0 ds]; [reflexivity|].
  destruct (@exists_last _ (d0 :: ds) ltac:(easy)) as (parent & d & ->).
  destruct (data_at t parent) as [q|] eqn:Hq.
  - destruct (@_insert_leaf_general T parent d t new ltac:(congruence))
      as (t' & -> & Hnew & Hrest).
    exists parent, d. repeat split; auto. congruence.
  - rewrite (@_insert_leaf_null T parent d t new Hq). now exists parent, d.
Qed.

(** X7. [_bubble_up] on any tree and direction stack.  It stops on its
    assertion exactly when the stack is empty, dereferences null exactly
    when the stack does not lead to a cell of the tree, and otherwise
    returns a tree with the same cells holding the same values, some of
    them exchanged along the path. *)
Theorem _bubble_up_outcome (T : Type) (cmp : T -> T -> bool)
  (t : NodePtr T) (dirs : list Direction) :
  match _bubble_up cmp t dirs with
  | Ok t' =>
      dirs <> [] /\ data_at t dirs <> None /\ same_shape t t' /\
      Permutation (elements t) (elements t')
  | AssertFail => dirs = []
  | NullDeref => dirs <> [] /\ data_at t dirs = None
  end.
Proof.
  destruct dirs as [|d0 ds]; [reflexivity|].
  destruct (data_at t (d0 :: ds)) as [q|] eqn:Hq.
  - destruct (@_bubble_up_total T cmp (d0 :: ds) t ltac:(easy)
                ltac:(congruence)) as (t' & -> & Hs & Hperm).
    repeat split; auto; congruence.
  - rewrite (@_bubble_up_null T cmp (d0 :: ds) t ltac:(easy) Hq). easy.
Qed.

(** X8. [pop_leaf] on any tree and direction stack.  It stops on its
    assertion exactly when the stack is empty, dereferences null exactly
    when the cell above the target slot does not exist, and otherwise
    returns: the target slot and everything below it is gone, every other
    cell is unchanged, and the returned node carries the data of the cell
    above the slot. *)
Theorem pop_leaf_outcome (T : Type) (t : NodePtr T) (dirs : list Direction) :
  match pop_leaf t dirs with
  | Ok (t', leaf) =>
      exists parent d q,
        dirs = parent ++ [d] /\ data_at t parent = Some q /\
        leaf = Node_leaf q /\
        (forall qs, data_at t' (dirs ++ qs) = None) /\
        (forall qs, (forall x, qs <> dirs ++ x) ->
                    data_at t' qs = data_at t qs)
  | AssertFail => dirs = []
  | NullDeref =>
      exists parent d, dirs = parent ++ [d] /\ data_at t parent = None
  end.
Proof.
  destruct dirs as [|d0 ds]; [reflexivity|].
  destruct (@exists_last _ (d0 :: ds) ltac:(easy)) as (parent & d & ->).
  destruct (data_at t parent) as [q|] eqn:Hq.
  - destruct (pop_leaf_spec parent d t Hq)
      as (t' & -> & _ & Hbelow & Hrest & _).
    exists parent, d, q. repeat split; auto.
  - rewrite (@pop_leaf_null T parent d t Hq). now exists parent, d.
Qed.

(** X9. [bubble_down] never fails on a live node, whatever the shape of the
    tree and whatever the predicate: it returns a tree with the same cells
    holding the same values.  On the null pointer it dereferences null. *)
Theorem bubble_down_outcome (T : Type) (cmp : T -> T -> bool)
  (node : NodePtr T) :
  match bubble_down cmp node with
  | Ok t' =>
      node <> EMPTY /\ same_shape node t' /\
      Permutation (elements node) (elements t')
  | AssertFail => False
  | NullDeref => node = EMPTY
  end.
Proof.
  destruct node as [|q l r]; [reflexivity|].
  destruct (@bubble_down_total T cmp (Node q l r) ltac:(easy))
    as (t' & -> & Hs & Hperm).
  repeat split; auto. easy.
Qed.

(** X10. [bubble_down] changes nothing when the root is already in order
    with its children (the predicate signals no violation against the left
    and the right child). *)
Theorem bubble_down_root_in_order (T : Type) (cmp : T -> T -> bool)
  (q : T) (l r : NodePtr T) :
  root_ok cmp q l -> root_ok cmp q r ->
  bubble_down cmp (Node q l r) = Ok (Node q l r).
Proof. apply bubble_down_in_order. Qed.

Lemma bubble_down_root_in_order_witness :
  root_ok Z.gtb 1%Z (Node_leaf 3%Z) /\ root_ok Z.gtb 1%Z (Node_leaf 2%Z) /\
  bubble_down Z.gtb (Node 1 (Node_leaf 3) (Node_leaf 2))%Z =
  Ok (Node 1 (Node_leaf 3) (Node_leaf 2))%Z.
Proof.
  assert (Hl : root_ok Z.gtb 1%Z (Node_leaf 3%Z)) by reflexivity.
  assert (Hr : root_ok Z.gtb 1%Z (Node_leaf 2%Z)) by reflexivity.
  split; [exact Hl|]. split; [exact Hr|].
  exact (@bubble_down_root_in_order Z Z.gtb 1%Z _ _ Hl Hr).
Defined.

(** X11. [bubble_down] restores heap order below a changed root: with a
    consistent predicate, on a left-packed tree whose two subtrees are
    ordered, it returns an ordered tree of the same shape. *)
Theorem bubble_down_restores_order (T : Type) (cmp : T -> T -> bool)
  (q : T) (l r : NodePtr T) :
  consistent cmp ->
  left_packed (Node q l r) -> ordered cmp l -> ordered cmp r ->
  exists t',
    bubble_down cmp (Node q l r) = Ok t' /\
    same_shape (Node q l r) t' /\ ordered cmp t'.
Proof.
  intros Hcmp Hp Hl Hr.
  destruct (bubble_down_spec Hcmp (Node q l r) Hp Hl Hr)
    as (t' & Hrun & Hs & Ho & _).
  exists t'. auto.
Qed.

Lemma bubble_down_restores_order_witness :
  consistent Z.gtb /\
  left_packed (Node 9 (Node 3 (Node_leaf 5) EMPTY) (Node_leaf 4))%Z /\
  ordered Z.gtb (Node 3 (Node_leaf 5) EMPTY)%Z /\
  ordered Z.gtb (Node_leaf 4%Z) /\
  exists t',
    bubble_down Z.gtb (Node 9 (Node 3 (Node_leaf 5) EMPTY) (Node_leaf 4))%Z =
      Ok t' /\
    same_shape (Node 9 (Node 3 (Node_leaf 5) EMPTY) (Node_leaf 4))%Z t' /\
    ordered Z.gtb t'.
Proof.
  assert (Hp : left_packed
                 (Node 9 (Node 3 (Node_leaf 5) EMPTY) (Node_leaf 4))%Z)
    by (simpl; repeat split; reflexivity).
  assert (Hl : ordered Z.gtb (Node 3 (Node_leaf 5) EMPTY)%Z)
    by (simpl; repeat split; reflexivity).
  assert (Hr : ordered Z.gtb (Node_leaf 4%Z)) by (simpl; repeat split).
  split; [exact consistent_gtb|]. split; [exact Hp|].
  split; [exact Hl|]. split; [exact Hr|].
  exact (@bubble_down_restores_order Z Z.gtb _ _ _ consistent_gtb Hp Hl Hr).
Defined.

(** X12. Attaching a leaf and bubbling up restores heap order: with a
    consistent predicate, on an ordered tree in which the cell above the
    target slot exists, [_insert_leaf] followed by [_bubble_up] along the
    same direction stack both return, and the result is an ordered tree
    with the shape that [_insert_leaf] produced. *)
Theorem insert_then_bubble_up_restores_order (T : Type)
  (cmp : T -> T -> bool) (t : NodePtr T) (parent : list Direction)
  (d : Direction) (v : T) :
  consistent cmp -> ordered cmp t -> data_at t parent <> None ->
  exists t1 t2,
    _insert_leaf t (Node_leaf v) (parent ++ [d]) = Ok t1 /\
    bubble_up cmp t1 (parent ++ [d]) = Ok t2 /\
    same_shape t1 t2 /\ ordered cmp t2.
Proof.
  intros Hcmp Ho Hp.
  destruct (insert_bubble_ordered Hcmp parent d t v Ho Hp)
    as (t1 & t2 & H1 & H2 & _ & Hs & Ho2 & _).
  exists t1, t2. auto.
Qed.

Lemma insert_then_bubble_up_restores_order_witness :
  consistent Z.gtb /\
  ordered Z.gtb (Node 3 (Node_leaf 5) (Node_leaf 8))%Z /\
  data_at (Node 3 (Node_leaf 5) (Node_leaf 8))%Z [L] <> None /\
  exists t1 t2,
    _insert_leaf (Node 3 (Node_leaf 5) (Node_leaf 8))%Z (Node_leaf 1%Z)
                 ([L] ++ [L]) = Ok t1 /\
    bubble_up Z.gtb t1 ([L] ++ [L]) = Ok t2 /\
    same_shape t1 t2 /\ ordered Z.gtb t2.
Proof.
  assert (Ho : ordered Z.gtb (Node 3 (Node_leaf 5) (Node_leaf 8))%Z)
    by (simpl; repeat split; reflexivity).
  assert (Hp : data_at (Node 3 (Node_leaf 5) (Node_leaf 8))%Z [L] <> None)
    by (simpl; discriminate).
  split; [exact consistent_gtb|]. split; [exact Ho|]. split; [exact Hp|].
  exact (@insert_then_bubble_up_restores_order Z Z.gtb _ [L] L 1%Z
           consistent_gtb Ho Hp).
Defined.

(** ** The values in the heap *)

Section HeapValues.

Context {T : Type}.
Implicit Types (h : Heap T) (v : T).

Lemma perm_rotate3 (a b c : T) (l : list T) :
  Permutation (a :: b :: c :: l) (c :: b :: a :: l).
Proof.
  apply Permutation_trans with (b :: a :: c :: l); [apply perm_swap|].
  apply Permutation_trans with (b :: c :: a :: l);
    [apply perm_skip, perm_swap|].
  apply Permutation_trans with (c :: b :: a :: l); [apply perm_swap|].
  apply Permutation_refl.
Qed.

(* In an ordered tree nothing is out of order below what may sit above the
   root. *)
Lemma ordered_below (cmp : T -> T -> bool) (m : T) (t : NodePtr T) :
  consistent cmp -> ordered cmp t -> root_ok cmp m t ->
  Forall (fun y => cmp m y = false) (elements t).
Proof.
  intros Hcmp. induction t as [|x l IHl r IHr]; intros Ho Hm; [constructor|].
  destruct Ho as (Hl & Hr & Hol & Hor). simpl in Hm. simpl.
  constructor; [exact Hm|]. apply Forall_app. split.
  - apply IHl; [exact Hol|]. exact (root_ok_negtrans Hcmp _ _ _ Hm Hl).
  - apply IHr; [exact Hor|]. exact (root_ok_negtrans Hcmp _ _ _ Hm Hr).
Qed.

Lemma ordered_top (cmp : T -> T -> bool) (t : NodePtr T) (v : T) :
  consistent cmp -> ordered cmp t -> data_at t [] = Some v ->
  Forall (fun y => cmp v y = false) (elements t).
Proof.
  intros Hcmp Ho Hv. apply ordered_below; [exact Hcmp|exact Ho|].
  destruct t as [|x l r]; [easy|]. simpl in Hv. injection Hv as ->. simpl.
  destruct (cmp v v) eqn:E; [|reflexivity].
  now rewrite (cmp_asym Hcmp _ _ E) in E.
Qed.

(* A completed [insert] adds the value and nothing else. *)
Lemma insert_values h v h' :
  consistent (compare h) -> heap_inv h ->
  insert h (Node_leaf v) = Ok h' ->
  Permutation (elements (tree h')) (v :: elements (tree h)).
Proof.
  intros Hcmp [Hord [[Hc Hlt]|[Ht Hs]]]; unfold insert.
  2: { rewrite Ht, Hs. change (uint_incr 1) with 2%N.
       change (get_dirlist 2) with [L]. simpl. easy. }
  destruct (N.eq_dec (size h + 1) UINT_MODULUS) as [Hwrap|Hfit].
  { rewrite (uint_incr_wrap _ Hwrap).
    change (get_dirlist 0) with (@nil Direction). simpl. easy. }
  rewrite uint_incr_small by lia.
  destruct (N.eq_dec (size h) 0) as [H0|H0].
  { rewrite H0 in *. change (0 + 1)%N with 1%N.
    change (get_dirlist 1) with (@nil Direction). simpl.
    rewrite (complete_0 Hc). intros [= <-]. apply Permutation_refl. }
  unfold insert_leaf, bubble_up.
  replace (size h + 1 =? 1)%N with false by (symmetry; apply N.eqb_neq; lia).
  replace (1 <? size h + 1)%N with true by (symmetry; apply N.ltb_lt; lia).
  destruct (@get_dirlist_parent (size h + 1) ltac:(lia))
    as (parent & d & E & Hpar).
  pose proof (position_of_get_dirlist (n := size h + 1) ltac:(lia)) as Hpos.
  destruct (@_insert_leaf_complete T (size h) (tree h) v ltac:(lia) Hc)
    as (t1 & Hins & Hc1).
  rewrite E in *. rewrite Hins. simpl.
  assert (Hfree : data_at (tree h) (parent ++ [d]) = None).
  { destruct (data_at (tree h) (parent ++ [d])) eqn:Hd; [|reflexivity].
    assert (position_of (parent ++ [d]) <= size h)%N
      by (apply Hc; congruence). lia. }
  pose proof (_insert_leaf_elements _ _ _ _ Hfree Hins) as Hperm1.
  destruct (@_bubble_up_total T (compare h) (parent ++ [d]) t1
              (@snoc_nonempty parent d) ltac:(apply Hc1; lia))
    as (t2 & -> & _ & Hperm2).
  simpl. intros [= <-]. simpl.
  apply Permutation_trans with (elements t1);
    [apply Permutation_sym, Hperm2|exact Hperm1].
Qed.

(* What a completed [pop_top] does to the values: the only value goes, or
   the returned root and the value of the last cell go while the value of
   the cell above the last cell comes in once more. *)
Lemma pop_top_values h v h' :
  consistent (compare h) -> heap_inv h ->
  pop_top h = Ok (v, h') ->
  (size h = 1%N /\ elements (tree h) = [v] /\ tree h' = EMPTY) \/
  (exists parent d lv q,
     get_dirlist (size h) = parent ++ [d] /\
     data_at (tree h) (parent ++ [d]) = Some lv /\
     data_at (tree h) parent = Some q /\
     Permutation (v :: lv :: elements (tree h'))
                 (q :: elements (tree h))).
Proof.
  intros Hcmp [Hord [[Hc Hlt]|[Ht Hs]]]; unfold pop_top.
  2: { rewrite Ht, Hs. change (0 <? 1)%N with true. simpl. easy. }
  destruct (N.eq_dec (size h) 0) as [H0|H0].
  { rewrite H0 in *. change (0 <? 0)%N with false. simpl. easy. }
  replace (0 <? size h)%N with true by (symmetry; apply N.ltb_lt; lia).
  simpl negb. cbv iota.
  pose proof (@complete_nonempty T _ _ Hc ltac:(lia)) as Hne.
  destruct (tree h) as [|x l r] eqn:Et; [easy|]. simpl.
  destruct (N.eq_dec (size h) 1) as [H1|H1].
  { rewrite H1 in *. change (1 =? 1)%N with true. simpl.
    intros [= <- <-]. left. split; [reflexivity|]. split; [|reflexivity].
    pose proof (complete_node_count Hc) as Hcount. simpl in Hcount.
    destruct l, r; simpl in Hcount; try lia. reflexivity. }
  replace (size h =? 1)%N with false by (symmetry; apply N.eqb_neq; lia).
  destruct (@get_dirlist_parent (size h) ltac:(lia))
    as (parent & d & E & Hpar).
  pose proof (position_of_get_dirlist (n := size h) ltac:(lia)) as Hpos.
  rewrite E in *.
  destruct (data_at (Node x l r) parent) as [q|] eqn:Hq;
    [|exfalso; revert Hq; apply Hc; lia].
  destruct (pop_leaf_spec parent d (Node x l r) Hq)
    as (t' & Hpop & Hroot & _).
  rewrite Hpop. simpl.
  destruct t' as [|x' l' r']; [easy|]. simpl in Hroot. injection Hroot as ->.
  simpl.
  destruct (@bubble_down_total T (compare h) (Node q l' r') ltac:(easy))
    as (t'' & -> & _ & Hperm).
  simpl. intros [= <- <-]. right. simpl tree.
  destruct (data_at (Node x l r) (parent ++ [d])) as [lv|] eqn:Hlv;
    [|exfalso; revert Hlv; apply Hc; lia].
  exists parent, d, lv, q. repeat split; auto.
  assert (Hleaf : Permutation (lv :: elements (Node x l' r'))
                              (elements (Node x l r))).
  { apply (@pop_leaf_elements T parent d (Node x l r) (Node x l' r')
             (Node_leaf q) lv Hpop Hlv).
    - destruct (data_at (Node x l r) ((parent ++ [d]) ++ [L])) eqn:Ed;
        [|reflexivity].
      assert (Hle : (position_of ((parent ++ [d]) ++ [L]) <= size h)%N)
        by (apply Hc; congruence).
      rewrite position_of_snoc, Hpos in Hle. unfold descend in Hle. lia.
    - destruct (data_at (Node x l r) ((parent ++ [d]) ++ [R])) eqn:Ed;
        [|reflexivity].
      assert (Hle : (position_of ((parent ++ [d]) ++ [R]) <= size h)%N)
        by (apply Hc; congruence).
      rewrite position_of_snoc, Hpos in Hle. unfold descend in Hle. lia. }
  apply Permutation_trans
    with (x :: lv :: q :: elements l' ++ elements r').
  { do 2 apply perm_skip. apply Permutation_sym. exact Hperm. }
  apply Permutation_trans
    with (q :: lv :: x :: elements l' ++ elements r');
    [apply perm_rotate3|].
  apply perm_skip. exact Hleaf.
Qed.

(* [pop_top] brings no new value into the heap. *)
Lemma pop_top_incl h v h' :
  consistent (compare h) -> heap_inv h ->
  pop_top h = Ok (v, h') ->
  forall y, In y (elements (tree h')) -> In y (elements (tree h)).
Proof.
  intros Hcmp Hinv Hpop y Hy.
  destruct (pop_top_values Hcmp Hinv Hpop)
    as [(_ & _ & Ht)|(parent & d & lv & q & _ & _ & Hq & Hperm)].
  - rewrite Ht in Hy. easy.
  - assert (Hin : In y (q :: elements (tree h))).
    { apply (Permutation_in _ Hperm). right. right. exact Hy. }
    destruct Hin as [<-|Hin]; [|exact Hin].
    exact (data_at_In _ _ Hq).
Qed.

(* Successive [pop_top] calls return values in priority order. *)
Lemma pop_n_sorted (n : nat) h (vs : list T) h' :
  consistent (compare h) -> heap_inv h ->
  pop_n h n = Ok (vs, h') ->
  Sorted (fun a b => compare h a b = false) vs.
Proof.
  revert h vs h'. induction n as [|n IH]; intros h vs h' Hcmp Hinv Hrun;
    simpl in Hrun.
  - injection Hrun as <- _. constructor.
  - destruct (pop_top h) as [[v h1]| |] eqn:Hpop; simpl in Hrun; try easy.
    destruct (pop_n h1 n) as [[ws h2]| |] eqn:Hrest; simpl in Hrun; try easy.
    injection Hrun as <- _.
    pose proof (pop_top_spec Hcmp Hinv) as Hspec. rewrite Hpop in Hspec.
    destruct Hspec as (Hinv1 & Hc1 & Hroot & _).
    assert (Hcmp1 : consistent (compare h1)) by (rewrite Hc1; exact Hcmp).
    specialize (IH h1 ws h2 Hcmp1 Hinv1 Hrest). rewrite Hc1 in IH.
    constructor; [exact IH|].
    destruct n as [|n]; simpl in Hrest.
    + injection Hrest as <- _. constructor.
    + destruct (pop_top h1) as [[w h3]| |] eqn:Hpop1; simpl in Hrest;
        try easy.
      destruct (pop_n h3 n) as [[ws' h4]| |]; simpl in Hrest; try easy.
      injection Hrest as <- _. constructor.
      pose proof (pop_top_spec Hcmp1 Hinv1) as Hspec1.
      rewrite Hpop1 in Hspec1. destruct Hspec1 as (_ & _ & Hroot1 & _).
      pose proof (@ordered_top (compare h) (tree h) v Hcmp (proj1 Hinv) Hroot)
        as Hmin.
      rewrite Forall_forall in Hmin. apply Hmin.
      apply (pop_top_incl Hcmp Hinv Hpop). exact (data_at_In _ _ Hroot1).
Qed.

End HeapValues.

(** ** The heap after a run of operations *)

Section ReachableFacts.

Context {T : Type}.
Implicit Types (h : Heap T) (ops : list (Op T)).

Lemma reachable_inv (cmp : T -> T -> bool) ops h :
  consistent cmp -> run (Heap_new cmp) ops = Ok h ->
  heap_inv h /\ consistent (compare h).
Proof.
  intros Hcmp Hrun.
  destruct (run_inv ops (h := Heap_new cmp) Hcmp (heap_inv_new cmp) Hrun)
    as [Hinv Hc].
  split; [exact Hinv|]. rewrite Hc. exact Hcmp.
Qed.

Lemma insert_compare h (node : NodePtr T) h' :
  insert h node = Ok h' -> compare h' = compare h.
Proof.
  unfold insert.
  destruct (insert_leaf _ _ _ _) as [t1| |]; simpl; try easy.
  destruct (1 <? _)%N; [|now intros [= <-]].
  destruct (bubble_up _ _ _) as [t2| |]; simpl; try easy.
  now intros [= <-].
Qed.

Lemma pop_top_compare h (v : T) h' :
  pop_top h = Ok (v, h') -> compare h' = compare h.
Proof.
  unfold pop_top. destruct (negb _); [easy|].
  destruct (get_data (tree h)) as [x| |]; simpl; try easy.
  destruct (size h =? 1)%N; [now intros [= _ <-]|].
  destruct (pop_leaf _ _) as [[t1 lf]| |]; simpl; try easy.
  destruct (get_data lf) as [q| |]; simpl; try easy.
  destruct (set_data t1 q) as [t2| |]; simpl; try easy.
  destruct (bubble_down _ t2) as [t3| |]; simpl; try easy.
  now intros [= _ <-].
Qed.

Lemma run_compare ops h h' : run h ops = Ok h' -> compare h' = compare h.
Proof.
  revert h. induction ops as [|o ops IH]; intros h Hrun; simpl in Hrun.
  - now injection Hrun as <-.
  - destruct (step h o) as [h1| |] eqn:Hstep; simpl in Hrun; try easy.
    rewrite (IH _ Hrun). destruct o as [v|]; simpl in Hstep.
    + exact (insert_compare _ _ Hstep).
    + destruct (pop_top h) as [[v h2]| |] eqn:Hpop; simpl in Hstep; try easy.
      injection Hstep as <-. exact (pop_top_compare _ Hpop).
Qed.

(* A heap with no tree and [size] 1 fails every call that touches the
   tree. *)
Lemma emptied_heap_fails h :
  tree h = EMPTY -> size h = 1%N ->
  (forall node, insert h node = NullDeref) /\
  pop_top h = NullDeref /\ get_top h = AssertFail.
Proof.
  intros Ht Hs. unfold insert, pop_top, get_top. rewrite Ht, Hs.
  change (uint_incr 1) with 2%N. change (get_dirlist 2) with [L].
  change (0 <? 1)%N with true. simpl. auto.
Qed.

End ReachableFacts.

(** X14. [insert] on a heap left by a run of operations (predicate
    consistent): unless the heap was emptied by [pop_top] or the counter is
    about to wrap, [insert] of a leaf returns, [get_size()] grows by one,
    the tree has one more cell, the values are the old values and the new
    one, and the predicate is the same. *)
Theorem insert_adds_one_value (T : Type) (cmp : T -> T -> bool)
  (ops : list (Op T)) (h : Heap T) (v : T) :
  consistent cmp ->
  run (Heap_new cmp) ops = Ok h ->
  tree h <> EMPTY \/ size h = 0%N ->
  (size h + 1 < UINT_MODULUS)%N ->
  exists h',
    insert h (Node_leaf v) = Ok h' /\
    get_size h' = (get_size h + 1)%N /\
    cells h' = S (cells h) /\
    Permutation (elements (tree h')) (v :: elements (tree h)) /\
    compare h' = compare h.
Proof.
  intros Hcmp Hrun Hlive Hfit.
  destruct (reachable_inv ops Hcmp Hrun) as [Hinv Hcmp'].
  pose proof (insert_spec v Hcmp' Hinv) as Hspec.
  pose proof (@insert_values T h v) as Hvals.
  destruct (insert h (Node_leaf v)) as [h'| |].
  - destruct Hspec as (_ & Hc & Hsz & Hcpl & Hcpl'). exists h'.
    split; [reflexivity|]. split; [exact Hsz|]. split.
    + unfold cells.
      rewrite (complete_node_count Hcpl), (complete_node_count Hcpl'). lia.
    + split; [|exact Hc]. now apply Hvals.
  - lia.
  - destruct Hspec as [Ht Hs]. destruct Hlive as [Hl|Hl]; [easy|].
    rewrite Hl in Hs. easy.
Qed.

Lemma insert_adds_one_value_witness :
  consistent Z.gtb /\
  run Heap_default (map (@OpInsert Z) [5; 3; 8])%Z =
    Ok {| tree := Node 3 (Node_leaf 5) (Node_leaf 8);
          size := 3; compare := Z.gtb |}%Z /\
  exists h',
    insert {| tree := Node 3 (Node_leaf 5) (Node_leaf 8);
              size := 3; compare := Z.gtb |}%Z (Node_leaf 1%Z) = Ok h' /\
    get_size h' = (3 + 1)%N /\
    cells h' = 4 /\
    Permutation (elements (tree h')) [1; 3; 5; 8]%Z /\
    compare h' = Z.gtb.
Proof.
  split; [exact consistent_gtb|]. split; [reflexivity|].
  refine (@insert_adds_one_value Z Z.gtb (map (@OpInsert Z) [5; 3; 8])%Z
            {| tree := Node 3 (Node_leaf 5) (Node_leaf 8);
               size := 3; compare := Z.gtb |}%Z 1%Z
            consistent_gtb _ _ _).
  - reflexivity.
  - left. discriminate.
  - rewrite UINT_MODULUS_eq. reflexivity.
Defined.

(** X15. The top has top priority: on a heap left by a run of operations
    (predicate consistent), the value [get_top()] returns is not out of
    order relative to any value stored in the heap; with the default
    predicate it is a minimum. *)
Theorem get_top_has_top_priority (T : Type) (cmp : T -> T -> bool)
  (ops : list (Op T)) (h : Heap T) (v : T) :
  consistent cmp ->
  run (Heap_new cmp) ops = Ok h ->
  get_top h = Ok v ->
  forall y, In y (elements (tree h)) -> compare h v y = false.
Proof.
  intros Hcmp Hrun Htop.
  destruct (reachable_inv ops Hcmp Hrun) as [[Hord _] Hcmp'].
  assert (Hroot : data_at (tree h) [] = Some v).
  { unfold get_top in Htop. destruct (tree h); [easy|]. simpl. congruence. }
  apply Forall_forall.
  exact (@ordered_top T (compare h) (tree h) v Hcmp' Hord Hroot).
Qed.

Lemma get_top_has_top_priority_witness :
  consistent Z.gtb /\
  run Heap_default (map (@OpInsert Z) [5; 3; 8])%Z =
    Ok {| tree := Node 3 (Node_leaf 5) (Node_leaf 8);
          size := 3; compare := Z.gtb |}%Z /\
  get_top {| tree := Node 3 (Node_leaf 5) (Node_leaf 8);
             size := 3; compare := Z.gtb |}%Z = Ok 3%Z /\
  In 8%Z (elements (Node 3 (Node_leaf 5) (Node_leaf 8))%Z) /\
  Z.gtb 3 8 = false.
Proof.
  assert (Hin : In 8%Z (elements (Node 3 (Node_leaf 5) (Node_leaf 8))%Z))
    by (simpl; auto).
  split; [exact consistent_gtb|]. split; [reflexivity|].
  split; [reflexivity|]. split; [exact Hin|].
  refine (@get_top_has_top_priority Z Z.gtb (map (@OpInsert Z) [5; 3; 8])%Z
            {| tree := Node 3 (Node_leaf 5) (Node_leaf 8);
               size := 3; compare := Z.gtb |}%Z 3%Z
            consistent_gtb _ _ 8%Z Hin); reflexivity.
Defined.

(** X16. What a completed [pop_top] does to the values of a heap left by a
    run of operations (predicate consistent).  Either the heap held one
    value, which is returned, and the tree is gone; or the returned root
    value and the value of the last cell leave the heap, and one more copy
    of the value held by the cell above the last cell comes in. *)
Theorem pop_top_effect_on_values (T : Type) (cmp : T -> T -> bool)
  (ops : list (Op T)) (h : Heap T) (v : T) (h' : Heap T) :
  consistent cmp ->
  run (Heap_new cmp) ops = Ok h ->
  pop_top h = Ok (v, h') ->
  (size h = 1%N /\ elements (tree h) = [v] /\ tree h' = EMPTY) \/
  (exists parent d lv q,
     get_dirlist (size h) = parent ++ [d] /\
     data_at (tree h) (parent ++ [d]) = Some lv /\
     data_at (tree h) parent = Some q /\
     Permutation (v :: lv :: elements (tree h'))
                 (q :: elements (tree h))).
Proof.
  intros Hcmp Hrun Hpop.
  destruct (reachable_inv ops Hcmp Hrun) as [Hinv Hcmp'].
  exact (pop_top_values Hcmp' Hinv Hpop).
Qed.

Lemma pop_top_effect_on_values_witness :
  consistent Z.gtb /\
  run Heap_default (map (@OpInsert Z) [1; 2; 3; 4])%Z =
    Ok {| tree := Node 1 (Node 2 (Node_leaf 4) EMPTY) (Node_leaf 3);
          size := 4; compare := Z.gtb |}%Z /\
  pop_top {| tree := Node 1 (Node 2 (Node_leaf 4) EMPTY) (Node_leaf 3);
             size := 4; compare := Z.gtb |}%Z =
    Ok (1, {| tree := Node 2 (Node_leaf 2) (Node_leaf 3);
              size := 3; compare := Z.gtb |})%Z /\
  ((4 = 1)%N /\
   elements (Node 1 (Node 2 (Node_leaf 4) EMPTY) (Node_leaf 3))%Z = [1%Z] /\
   (Node 2 (Node_leaf 2) (Node_leaf 3))%Z = EMPTY \/
   exists parent d lv q,
     get_dirlist 4 = parent ++ [d] /\
     data_at (Node 1 (Node 2 (Node_leaf 4) EMPTY) (Node_leaf 3))%Z
             (parent ++ [d]) = Some lv /\
     data_at (Node 1 (Node 2 (Node_leaf 4) EMPTY) (Node_leaf 3))%Z parent =
       Some q /\
     Permutation
       (1%Z :: lv :: elements (Node 2 (Node_leaf 2) (Node_leaf 3))%Z)
       (q :: elements (Node 1 (Node 2 (Node_leaf 4) EMPTY) (Node_leaf 3))%Z)).
Proof.
  split; [exact consistent_gtb|]. split; [reflexivity|].
  split; [reflexivity|].
  refine (@pop_top_effect_on_values Z Z.gtb
            (map (@OpInsert Z) [1; 2; 3; 4])%Z
            {| tree := Node 1 (Node 2 (Node_leaf 4) EMPTY) (Node_leaf 3);
               size := 4; compare := Z.gtb |}%Z 1%Z
            {| tree := Node 2 (Node_leaf 2) (Node_leaf 3);
               size := 3; compare := Z.gtb |}%Z
            consistent_gtb _ _); reflexivity.
Defined.

(** X17. Values come out in priority order: on a heap left by a run of
    operations (predicate consistent), the values returned by any number of
    successive completed [pop_top] calls are sorted, no returned value
    being out of order relative to any value returned after it (with the
    default predicate the sequence is non-decreasing). *)
Theorem successive_pops_are_sorted (T : Type) (cmp : T -> T -> bool)
  (ops : list (Op T)) (h : Heap T) (n : nat) (vs : list T) (h' : Heap T) :
  consistent cmp ->
  run (Heap_new cmp) ops = Ok h ->
  pop_n h n = Ok (vs, h') ->
  StronglySorted (fun a b => compare h a b = false) vs.
Proof.
  intros Hcmp Hrun Hpops.
  destruct (reachable_inv ops Hcmp Hrun) as [Hinv Hcmp'].
  apply Sorted_StronglySorted.
  - intros a b c Hab Hbc. exact (cmp_negtrans Hcmp' _ _ _ Hab Hbc).
  - exact (pop_n_sorted n Hcmp' Hinv Hpops).
Qed.

Lemma successive_pops_are_sorted_witness :
  consistent Z.gtb /\
  run Heap_default (map (@OpInsert Z) [5; 3; 8; 1; 9; 2])%Z =
    Ok {| tree := Node 1 (Node 3 (Node_leaf 5) (Node_leaf 9))
                         (Node 2 (Node_leaf 8) EMPTY);
          size := 6; compare := Z.gtb |}%Z /\
  pop_n {| tree := Node 1 (Node 3 (Node_leaf 5) (Node_leaf 9))
                          (Node 2 (Node_leaf 8) EMPTY);
           size := 6; compare := Z.gtb |}%Z 4 =
    Ok ([1; 2; 2; 3], {| tree := Node 3 (Node_leaf 3) EMPTY;
                         size := 2; compare := Z.gtb |})%Z /\
  StronglySorted (fun a b => Z.gtb a b = false) [1; 2; 2; 3]%Z.
Proof.
  split; [exact consistent_gtb|]. split; [reflexivity|].
  split; [reflexivity|].
  refine (@successive_pops_are_sorted Z Z.gtb
            (map (@OpInsert Z) [5; 3; 8; 1; 9; 2])%Z
            {| tree := Node 1 (Node 3 (Node_leaf 5) (Node_leaf 9))
                              (Node 2 (Node_leaf 8) EMPTY);
               size := 6; compare := Z.gtb |}%Z 4 [1; 2; 2; 3]%Z
            {| tree := Node 3 (Node_leaf 3) EMPTY;
               size := 2; compare := Z.gtb |}%Z
            consistent_gtb _ _); reflexivity.
Defined.

(** X18. Shape on completed runs: whenever a run of inserts and pops from
    a fresh heap returns (predicate consistent), the tree is a complete
    binary tree, no cell has a right child without a left child, and the
    number of cells is the number of inserts minus the number of pops. *)
Theorem completed_runs_keep_the_shape (T : Type) (cmp : T -> T -> bool)
  (ops : list (Op T)) (h : Heap T) :
  consistent cmp ->
  run (Heap_new cmp) ops = Ok h ->
  complete (N.of_nat (cells h)) (tree h) /\
  left_packed (tree h) /\
  cells h + pops_in ops = inserts_in ops.
Proof. apply completed_run_shape. Qed.

Lemma completed_runs_keep_the_shape_witness :
  consistent Z.gtb /\
  run Heap_default [OpInsert 5; OpInsert 3; OpPopTop; OpInsert 8]%Z =
    Ok {| tree := Node 3 (Node_leaf 8) EMPTY;
          size := 2; compare := Z.gtb |}%Z /\
  complete 2 (Node 3 (Node_leaf 8) EMPTY)%Z /\
  left_packed (Node 3 (Node_leaf 8) EMPTY)%Z /\
  2 + 1 = 3.
Proof.
  split; [exact consistent_gtb|]. split; [reflexivity|].
  refine (@completed_runs_keep_the_shape Z Z.gtb
            [OpInsert 5; OpInsert 3; OpPopTop; OpInsert 8]%Z
            {| tree := Node 3 (Node_leaf 8) EMPTY;
               size := 2; compare := Z.gtb |}%Z
            consistent_gtb _); reflexivity.
Defined.



(** X20. A heap that [pop_top] has emptied cannot be used again: after a
    completed [pop_top] that leaves no tree (on a heap left by a run of
    operations, predicate consistent), [get_size()] is 1, every [insert]
    and every further [pop_top] dereferences the null tree, and
    [get_top()] stops on its assertion. *)
Theorem emptied_heap_is_unusable (T : Type) (cmp : T -> T -> bool)
  (ops : list (Op T)) (h : Heap T) (v : T) (h' : Heap T) :
  consistent cmp ->
  run (Heap_new cmp) ops = Ok h ->
  pop_top h = Ok (v, h') ->
  tree h' = EMPTY ->
  get_size h' = 1%N /\
  (forall node, insert h' node = NullDeref) /\
  pop_top h' = NullDeref /\
  get_top h' = AssertFail.
Proof.
  intros Hcmp Hrun Hpop Ht.
  destruct (reachable_inv ops Hcmp Hrun) as [Hinv Hcmp'].
  pose proof (pop_top_spec Hcmp' Hinv) as Hspec. rewrite Hpop in Hspec.
  destruct Hspec as (_ & _ & Hroot & Hc & Hafter).
  assert (Hs : size h' = 1%N).
  { destruct (N.eqb_spec (size h) 1) as [H1|H1]; [tauto|].
    destruct Hafter as [Hc' Hsz]. rewrite Ht in Hc'.
    assert (Hpos : (position_of [] <= size h)%N) by (apply Hc; congruence).
    change (position_of []) with 1%N in Hpos.
    exfalso. apply (@complete_nonempty T _ _ Hc'); [lia|reflexivity]. }
  split; [exact Hs|]. exact (emptied_heap_fails h' Ht Hs).
Qed.

Lemma emptied_heap_is_unusable_witness :
  consistent Z.gtb /\
  run Heap_default [OpInsert 5]%Z =
    Ok {| tree := Node_leaf 5; size := 1; compare := Z.gtb |}%Z /\
  pop_top {| tree := Node_leaf 5; size := 1; compare := Z.gtb |}%Z =
    Ok (5, {| tree := EMPTY; size := 1; compare := Z.gtb |})%Z /\
  get_size {| tree := @EMPTY Z; size := 1; compare := Z.gtb |} = 1%N /\
  (forall node,
     insert {| tree := @EMPTY Z; size := 1; compare := Z.gtb |} node =
     NullDeref) /\
  pop_top {| tree := @EMPTY Z; size := 1; compare := Z.gtb |} = NullDeref /\
  get_top {| tree := @EMPTY Z; size := 1; compare := Z.gtb |} = AssertFail.
Proof.
  split; [exact consistent_gtb|]. split; [reflexivity|].
  split; [reflexivity|].
  refine (@emptied_heap_is_unusable Z Z.gtb [OpInsert 5]%Z
            {| tree := Node_leaf 5; size := 1; compare := Z.gtb |}%Z 5%Z
            {| tree := EMPTY; size := 1; compare := Z.gtb |}
            consistent_gtb _ _ _); reflexivity.
Defined.

(** X21. The counter limit: on any heap whose [size] is the largest [uint],
    [insert] stops on the assertion of [_insert_leaf]: the incremented
    counter wraps to 0, for which the direction stack is empty. *)
Theorem insert_at_counter_limit (T : Type) (h : Heap T) (node : NodePtr T) :
  size h = (UINT_MODULUS - 1)%N -> insert h node = AssertFail.
Proof.
  intros Hs. unfold insert. rewrite Hs.
  change (uint_incr (UINT_MODULUS - 1)) with 0%N.
  change (get_dirlist 0) with (@nil Direction). reflexivity.
Qed.

Lemma insert_at_counter_limit_witness :
  size {| tree := Node_leaf 7%Z; size := 4294967295; compare := Z.gtb |} =
    (UINT_MODULUS - 1)%N /\
  insert {| tree := Node_leaf 7%Z; size := 4294967295; compare := Z.gtb |}
         (Node_leaf 1%Z) = AssertFail.
Proof.
  assert (Hs : size {| tree := Node_leaf 7%Z; size := 4294967295;
                       compare := Z.gtb |} = (UINT_MODULUS - 1)%N)
    by reflexivity.
  split; [exact Hs|]. exact (insert_at_counter_limit _ (Node_leaf 1%Z) Hs).
Defined.

(** X22. [insert] of a null node, on a heap left by a run of operations
    (predicate consistent, counter not about to wrap).  On an empty heap it
    returns and leaves a heap with no tree and [size] 1; on any other heap
    it dereferences null (in [_bubble_up], or at the null tree of an
    emptied heap).  It never stops on an assertion. *)
Theorem insert_null_node (T : Type) (cmp : T -> T -> bool)
  (ops : list (Op T)) (h : Heap T) :
  consistent cmp ->
  run (Heap_new cmp) ops = Ok h ->
  (size h + 1 < UINT_MODULUS)%N ->
  match insert h EMPTY with
  | Ok h' => size h = 0%N /\ tree h' = EMPTY /\ size h' = 1%N
  | AssertFail => False
  | NullDeref => size h <> 0%N
  end.
Proof.
  intros Hcmp Hrun Hfit.
  destruct (reachable_inv ops Hcmp Hrun) as [[_ [[Hc _]|[Ht Hs]]] _].
  2: { rewrite (proj1 (emptied_heap_fails h Ht Hs)). now rewrite Hs. }
  unfold insert. rewrite uint_incr_small by lia.
  destruct (N.eq_dec (size h) 0) as [H0|H0].
  { rewrite H0. change (0 + 1)%N with 1%N.
    change (get_dirlist 1) with (@nil Direction). simpl. auto. }
  unfold insert_leaf, bubble_up.
  replace (size h + 1 =? 1)%N with false by (symmetry; apply N.eqb_neq; lia).
  replace (1 <? size h + 1)%N with true by (symmetry; apply N.ltb_lt; lia).
  destruct (@get_dirlist_parent (size h + 1) ltac:(lia))
    as (parent & d & E & Hpar).
  rewrite E.
  destruct (@_insert_leaf_general T parent d (tree h) EMPTY
              ltac:(apply Hc; lia)) as (t1 & -> & Hnew & _).
  simpl. specialize (Hnew []). rewrite app_nil_r in Hnew. simpl in Hnew.
  rewrite (@_bubble_up_null T (compare h) (parent ++ [d]) t1
             (@snoc_nonempty parent d) Hnew).
  exact H0.
Qed.

Lemma insert_null_node_witness :
  consistent Z.gtb /\
  run Heap_default (map (@OpInsert Z) [5; 3])%Z =
    Ok {| tree := Node 3 (Node_leaf 5) EMPTY;
          size := 2; compare := Z.gtb |}%Z /\
  (2 + 1 < UINT_MODULUS)%N /\
  insert {| tree := Node 3 (Node_leaf 5) EMPTY;
            size := 2; compare := Z.gtb |}%Z EMPTY = NullDeref.
Proof.
  split; [exact consistent_gtb|]. split; [reflexivity|].
  split; [reflexivity|].
  assert (Hrun : run (Heap_new Z.gtb) (map (@OpInsert Z) [5; 3])%Z =
                 Ok {| tree := Node 3 (Node_leaf 5) EMPTY;
                       size := 2; compare := Z.gtb |}%Z) by reflexivity.
  assert (Hfit : (size {| tree := Node 3 (Node_leaf 5) EMPTY;
                          size := 2; compare := Z.gtb |}%Z + 1
                  < UINT_MODULUS)%N) by reflexivity.
  pose proof (insert_null_node _ consistent_gtb Hrun Hfit) as H.
  destruct (insert {| tree := Node 3 (Node_leaf 5) EMPTY;
                      size := 2; compare := Z.gtb |}%Z EMPTY);
    [destruct H as [H _]; discriminate H|destruct H|reflexivity].
Defined.

(** X23. No operation replaces the predicate: from any heap, the heap left
    by a completed run of inserts and pops has the predicate it started
    with. *)
Theorem predicate_never_changes (T : Type) (h : Heap T)
  (ops : list (Op T)) (h' : Heap T) :
  run h ops = Ok h' -> compare h' = compare h.
Proof. apply run_compare. Qed.

Lemma predicate_never_changes_witness :
  run (Heap_new Z.ltb) [OpInsert 1; OpInsert 4; OpPopTop]%Z =
    Ok {| tree := Node_leaf 4; size := 1; compare := Z.ltb |}%Z /\
  compare {| tree := Node_leaf 4; size := 1; compare := Z.ltb |}%Z =
    compare (Heap_new Z.ltb).
Proof.
  split; [reflexivity|].
  refine (@predicate_never_changes Z (Heap_new Z.ltb)
            [OpInsert 1; OpInsert 4; OpPopTop]%Z
            {| tree := Node_leaf 4; size := 1; compare := Z.ltb |}%Z _).
  reflexivity.
Defined.

(** X24. The walks hit their targets: on a heap left by a run of
    operations that was not popped empty (predicate consistent), the slot
    that the next [insert] fills is free, so [_insert_leaf] overwrites no
    cell; and when the heap is not empty the cell that the next [pop_top]
    detaches exists and has no children, so [delete] frees one cell. *)
Theorem walks_hit_their_targets (T : Type) (cmp : T -> T -> bool)
  (ops : list (Op T)) (h : Heap T) :
  consistent cmp ->
  run (Heap_new cmp) ops = Ok h ->
  tree h <> EMPTY \/ size h = 0%N ->
  data_at (tree h) (get_dirlist (size h + 1)) = None /\
  ((1 <= size h)%N ->
   data_at (tree h) (get_dirlist (size h)) <> None /\
   forall d, data_at (tree h) (get_dirlist (size h) ++ [d]) = None).
Proof.
  intros Hcmp Hrun Hlive.
  destruct (reachable_inv ops Hcmp Hrun) as [[_ [[Hc _]|[Ht Hs]]] _].
  2: { destruct Hlive as [Hl|Hl]; [easy|]. rewrite Hl in Hs. easy. }
  split.
  - destruct (data_at (tree h) (get_dirlist (size h + 1))) eqn:E;
      [|reflexivity].
    assert (Hle : (position_of (get_dirlist (size h + 1)) <= size h)%N)
      by (apply Hc; congruence).
    rewrite position_of_get_dirlist in Hle by lia. lia.
  - intros Hn. split.
    + apply Hc. rewrite position_of_get_dirlist by lia. lia.
    + intros d.
      destruct (data_at (tree h) (get_dirlist (size h) ++ [d])) eqn:E;
        [|reflexivity].
      assert (Hle : (position_of (get_dirlist (size h) ++ [d]) <= size h)%N)
        by (apply Hc; congruence).
      rewrite position_of_snoc, position_of_get_dirlist in Hle by lia.
      destruct d; unfold descend in Hle; lia.
Qed.

Lemma walks_hit_their_targets_witness :
  consistent Z.gtb /\
  run Heap_default (map (@OpInsert Z) [5; 3; 8])%Z =
    Ok {| tree := Node 3 (Node_leaf 5) (Node_leaf 8);
          size := 3; compare := Z.gtb |}%Z /\
  data_at (Node 3 (Node_leaf 5) (Node_leaf 8))%Z (get_dirlist (3 + 1)) =
    None /\
  data_at (Node 3 (Node_leaf 5) (Node_leaf 8))%Z (get_dirlist 3) <> None.
Proof.
  split; [exact consistent_gtb|]. split; [reflexivity|].
  assert (Hrun : run (Heap_new Z.gtb) (map (@OpInsert Z) [5; 3; 8])%Z =
                 Ok {| tree := Node 3 (Node_leaf 5) (Node_leaf 8);
                       size := 3; compare := Z.gtb |}%Z) by reflexivity.
  assert (Hlive : tree {| tree := Node 3 (Node_leaf 5) (Node_leaf 8);
                          size := 3; compare := Z.gtb |}%Z <> EMPTY \/
                  size {| tree := Node 3 (Node_leaf 5) (Node_leaf 8);
                          size := 3; compare := Z.gtb |}%Z = 0%N)
    by (left; discriminate).
  destruct (walks_hit_their_targets _ consistent_gtb Hrun Hlive)
    as [Hfree Hlast].
  split; [exact Hfree|]. apply Hlast. simpl. lia.
Defined.
